(** * Verification of the zashboard topology aggregator and settings-page
    navigation.

    Sources embedded:
    - [src/src/components/overview/TopologyCharts.vue]: [sankeyData],
      [addNode], [getNodeTypeName], the tooltip and label formatters of
      [options], and the decision of [updateChartData];
    - the settings page (src/unnamed/part_000): [menuItems],
      [handleMenuClick], [getNextMenuKey], [getPrevMenuKey],
      [isInputActive], the swipe watcher, [updateActiveMenuByVisibility],
      [debouncedUpdateActiveMenu], [setupIntersectionObservers] with its
      [nextTick] callback and the watcher that re-runs it. *)

From Stdlib Require Import List Bool Arith Lia String Ascii Decimal
  DecimalString DecimalNat ZArith QArith Lqa.
Import ListNotations.

Open Scope nat_scope.
Open Scope string_scope.

(** ** JavaScript [Map]: an insertion-ordered association list.
    [set] on a present key updates the value in place (the key keeps its
    position); [set] on an absent key appends; [delete] removes. *)
Module JSMap.
Section Ops.
Context {K V : Type} (eqb : K -> K -> bool).

Fixpoint get (k : K) (m : list (K * V)) : option V :=
  match m with
  | [] => None
  | (k', v) :: m' => if eqb k k' then Some v else get k m'
  end.

Definition has (k : K) (m : list (K * V)) : bool :=
  match get k m with Some _ => true | None => false end.

Fixpoint set (k : K) (v : V) (m : list (K * V)) : list (K * V) :=
  match m with
  | [] => [(k, v)]
  | (k', v') :: m' =>
      if eqb k k' then (k', v) :: m' else (k', v') :: set k v m'
  end.

Fixpoint delete (k : K) (m : list (K * V)) : list (K * V) :=
  match m with
  | [] => []
  | (k', v') :: m' => if eqb k k' then m' else (k', v') :: delete k m'
  end.
End Ops.
End JSMap.

(** ** Numbers as strings: template literals [`${n}`] and [Number(s)]. *)

(** [`${n}`] for a non-negative integer [n]. *)
Definition string_of_nat (n : nat) : string :=
  NilZero.string_of_uint (Nat.to_uint n).

(** [Number(s)] on a decimal digit string; [None] stands for [NaN]. *)
Definition Number (s : string) : option nat :=
  match NilZero.uint_of_string s with
  | Some d => Some (Nat.of_uint d)
  | None => None
  end.

(** [s.split(c)] for a one-character separator [c]. *)
Fixpoint split (c : ascii) (s : string) : list string :=
  match s with
  | EmptyString => [EmptyString]
  | String a s' =>
      let rest := split c s' in
      if Ascii.eqb a c then EmptyString :: rest
      else match rest with
           | [] => [String a EmptyString]
           | h :: t => String a h :: t
           end
  end.

(** ** Connection records (the fields [sankeyData] reads). *)
Record Connection := mkConn {
  metadata_sourceIP : string;
  rule : string;
  rulePayload : string;
  chains : option (list string)   (* [None]: [conn.chains] undefined *)
}.

(** [conn.metadata.sourceIP || 'Unknown'] *)
Definition sourceIP_of (c : Connection) : string :=
  if String.eqb (metadata_sourceIP c) "" then "Unknown" else metadata_sourceIP c.

(** [conn.rulePayload ? `${conn.rule}: ${conn.rulePayload}` : conn.rule] *)
Definition rulePayload_of (c : Connection) : string :=
  if String.eqb (rulePayload c) "" then rule c
  else rule c ++ ": " ++ rulePayload c.

(** [conn.chains || []] *)
Definition chains_of (c : Connection) : list string :=
  match chains c with Some l => l | None => [] end.

(** [chains[chains.length - 1]] and [chains[0]] on a non-empty chain. *)
Definition chainLast (l : list string) : string := last l "".
Definition chainFirst (l : list string) : string := hd "" l.

(** ** The aggregation pass of [sankeyData]. *)
Record AggState := mkAgg {
  nodeMap : list (string * nat);
  linkMap : list (string * nat);
  layerMap : list (string * nat);
  nodeIndex : nat
}.

Definition agg_init : AggState := mkAgg [] [] [] 0.

(** [addNode(name, layer)] *)
Definition addNode (name : string) (layer : nat) (st : AggState) : nat * AggState :=
  let st' :=
    if negb (JSMap.has String.eqb name (nodeMap st)) then
      mkAgg (JSMap.set String.eqb name (nodeIndex st) (nodeMap st))
            (linkMap st)
            (JSMap.set String.eqb name layer (layerMap st))
            (S (nodeIndex st))
    else st in
  (match JSMap.get String.eqb name (nodeMap st') with Some i => i | None => 0 end,
   st').

(** [`${a}-${b}`] *)
Definition link_key (a b : nat) : string :=
  string_of_nat a ++ "-" ++ string_of_nat b.

(** [linkMap.set(k, (linkMap.get(k) || 0) + 1)] *)
Definition bump (k : string) (st : AggState) : AggState :=
  let old := match JSMap.get String.eqb k (linkMap st) with Some v => v | None => 0 end in
  mkAgg (nodeMap st) (JSMap.set String.eqb k (old + 1) (linkMap st))
        (layerMap st) (nodeIndex st).

(** The body of [connections.forEach((conn) => ...)]. *)
Definition processConn (st : AggState) (conn : Connection) : AggState :=
  let sourceIP := sourceIP_of conn in
  let rp := rulePayload_of conn in
  let cs := chains_of conn in
  match cs with
  | [] => st
  | _ =>
    let (sourceNode, st) := addNode sourceIP 0 st in
    let (ruleNode, st) := addNode rp 1 st in
    let (chainLastNode, st) := addNode (chainLast cs) 2 st in
    let (chainFirstNode, st) := addNode (chainFirst cs) 3 st in
    let st := bump (link_key sourceNode ruleNode) st in
    let st := bump (link_key ruleNode chainLastNode) st in
    bump (link_key chainLastNode chainFirstNode) st
  end.

Definition aggregate (conns : list Connection) : AggState :=
  fold_left processConn conns agg_init.

Definition layerColors : list string := ["#5470c6"; "#91cc75"; "#fac858"; "#ee6666"].

Record SNode := mkSNode { node_id : nat; node_name : string; node_color : string }.
Record SLink := mkSLink { source : option nat; target : option nat; value : nat }.
Record SankeyData := mkSankey { nodes : list SNode; links : list SLink }.

Definition to_node (st : AggState) (p : string * nat) : SNode :=
  let '(name, index) := p in
  mkSNode index name
    (nth (match JSMap.get String.eqb name (layerMap st) with Some l => l | None => 0 end)
         layerColors "").

(** [const [source, target] = link.split('-').map(Number)] *)
Definition to_link (p : string * nat) : SLink :=
  let '(link, v) := p in
  let parts := map Number (split "-"%char link) in
  mkSLink (nth 0 parts None) (nth 1 parts None) v.

Definition sankeyData (connections : list Connection) : SankeyData :=
  match connections with
  | [] => mkSankey [] []
  | _ =>
    let st := aggregate connections in
    mkSankey (map (to_node st) (nodeMap st)) (map to_link (linkMap st))
  end.

(** [getNodeTypeName]: the i18n keys it returns. *)
Inductive NodeType := sourceIPAddress | ruleMatch | proxyChainEntry | proxyChainExit | unknown.

Fixpoint scan_node_type (name : string) (conns : list Connection) : NodeType :=
  match conns with
  | [] => unknown
  | conn :: rest =>
    let sourceIP := sourceIP_of conn in
    let rp := rulePayload_of conn in
    let cs := chains_of conn in
    match cs with
    | [] => scan_node_type name rest
    | _ =>
      if String.eqb name sourceIP then sourceIPAddress
      else if String.eqb name rp then ruleMatch
      else if String.eqb name (chainLast cs) then proxyChainEntry
      else if String.eqb name (chainFirst cs) then proxyChainExit
      else scan_node_type name rest
    end
  end.

Definition getNodeTypeName (connections : list Connection) (name : string) : NodeType :=
  match connections with
  | [] => unknown
  | _ => scan_node_type name connections
  end.

(** ** Settings page: menu keys and swipe navigation. *)

(** [enum MenuKey]; the string values are all non-empty, so a [MenuKey]
    is always truthy. *)
Inductive MenuKey := general | backend | proxies | connections | overview.

Definition MenuKey_eqb (a b : MenuKey) : bool :=
  match a, b with
  | general, general | backend, backend | proxies, proxies
  | connections, connections | overview, overview => true
  | _, _ => false
  end.

(** The keys of [menuItems], in order (labels, icons and components do not
    take part in navigation). *)
Definition menuItems (splitOverviewPage : bool) : list MenuKey :=
  let items := [general; backend; proxies; connections] in
  if splitOverviewPage then items ++ [overview] else overview :: items.

(** [findIndex]; [None] stands for [-1]. *)
Fixpoint findIndex (k : MenuKey) (l : list MenuKey) : option nat :=
  match l with
  | [] => None
  | x :: l' => if MenuKey_eqb x k then Some 0
               else option_map S (findIndex k l')
  end.

(** [getNextMenuKey]: the new [activeMenuKey] ([handleMenuClick] sets it). *)
Definition getNextMenuKey (items : list MenuKey) (activeMenuKey : MenuKey) : MenuKey :=
  match findIndex activeMenuKey items with
  | None => activeMenuKey
  | Some currentIndex =>
      let nextIndex := (currentIndex + 1) mod List.length items in
      nth nextIndex items activeMenuKey
  end.

(** [getPrevMenuKey], with the integer arithmetic of
    [(currentIndex - 1 + length) % length]. *)
Definition getPrevMenuKey (items : list MenuKey) (activeMenuKey : MenuKey) : MenuKey :=
  match findIndex activeMenuKey items with
  | None => activeMenuKey
  | Some currentIndex =>
      let prevIndex :=
        Z.to_nat ((Z.of_nat currentIndex - 1 + Z.of_nat (List.length items))
                  mod Z.of_nat (List.length items))%Z in
      nth prevIndex items activeMenuKey
  end.

(** ** Visibility map and the most-visible decision. *)

Definition VisMap := list (MenuKey * Q).

(** [a < b] on ratios. *)
Definition Qlt_bool (a b : Q) : bool := negb (Qle_bool b a).

Definition vis_step (acc : Q * option MenuKey) (e : MenuKey * Q) : Q * option MenuKey :=
  let '(maxRatio, mostVisibleKey) := acc in
  let '(key, ratio) := e in
  if Qlt_bool maxRatio ratio then (ratio, Some key) else (maxRatio, mostVisibleKey).

(** The scan of [updateActiveMenuByVisibility]: the key it would activate. *)
Definition selectMostVisible (m : VisMap) : option MenuKey :=
  let '(maxRatio, mostVisibleKey) := fold_left vis_step m (0%Q, None) in
  match mostVisibleKey with
  | Some k => if Qle_bool (3 # 10) maxRatio then Some k else None
  | None => None
  end.

(** [updateActiveMenuByVisibility]: the new [activeMenuKey]. *)
Definition updateActiveMenuByVisibility (isMiddleScreen hasScrollContainer : bool)
    (m : VisMap) (activeMenuKey : MenuKey) : MenuKey :=
  if negb isMiddleScreen || negb hasScrollContainer then activeMenuKey
  else match selectMostVisible m with
       | Some k => k
       | None => activeMenuKey
       end.

(** The intersection callback's update of [visibilityRatios]. *)
Definition onIntersect (key : MenuKey) (ratio : Q) (m : VisMap) : VisMap :=
  if Qlt_bool 0 ratio then JSMap.set MenuKey_eqb key ratio m
  else JSMap.delete MenuKey_eqb key m.

(** ** Timers and the debounce.  The page state with the browser's timer
    queue: [timers] holds the pending [setTimeout] callbacks of
    [debouncedUpdateActiveMenu] as (handle, deadline); [recomputations]
    logs the map each fired callback read. *)
Record PageState := mkPage {
  now : nat;
  isMiddleScreen : bool;
  hasScrollContainer : bool;
  visibilityRatios : VisMap;
  activeMenuKey : MenuKey;
  updateTimer : option nat;
  timers : list (nat * nat);
  nextHandle : nat;
  recomputations : list VisMap
}.

Definition page_init (middle container : bool) (active : MenuKey) : PageState :=
  mkPage 0 middle container [] active None [] 1 [].

(** The timer callback: [updateActiveMenuByVisibility(); updateTimer = null]. *)
Definition timer_callback (s : PageState) : PageState :=
  mkPage (now s) (isMiddleScreen s) (hasScrollContainer s) (visibilityRatios s)
    (updateActiveMenuByVisibility (isMiddleScreen s) (hasScrollContainer s)
       (visibilityRatios s) (activeMenuKey s))
    None (timers s) (nextHandle s) (recomputations s ++ [visibilityRatios s]).

Definition with_timers (s : PageState) (ts : list (nat * nat)) : PageState :=
  mkPage (now s) (isMiddleScreen s) (hasScrollContainer s) (visibilityRatios s)
    (activeMenuKey s) (updateTimer s) ts (nextHandle s) (recomputations s).

Definition with_ratios (s : PageState) (m : VisMap) : PageState :=
  mkPage (now s) (isMiddleScreen s) (hasScrollContainer s) m
    (activeMenuKey s) (updateTimer s) (timers s) (nextHandle s) (recomputations s).

Definition with_now (s : PageState) (t : nat) : PageState :=
  mkPage t (isMiddleScreen s) (hasScrollContainer s) (visibilityRatios s)
    (activeMenuKey s) (updateTimer s) (timers s) (nextHandle s) (recomputations s).

(** [clearTimeout(h)] *)
Definition clearTimeout (h : nat) (s : PageState) : PageState :=
  with_timers s (filter (fun p => negb (Nat.eqb (fst p) h)) (timers s)).

(** Run every pending callback whose deadline is [<= t], queue order. *)
Fixpoint fire_due (fuel t : nat) (s : PageState) : PageState :=
  match fuel with
  | 0 => s
  | S fuel' =>
    match find (fun p => Nat.leb (snd p) t) (timers s) with
    | None => s
    | Some (h, _) => fire_due fuel' t (timer_callback (clearTimeout h s))
    end
  end.

(** Time passes until [t]. *)
Definition advance (t : nat) (s : PageState) : PageState :=
  with_now (fire_due (List.length (timers s)) t s) (Nat.max (now s) t).

(** [debouncedUpdateActiveMenu] *)
Definition debouncedUpdateActiveMenu (s : PageState) : PageState :=
  let s := match updateTimer s with Some h => clearTimeout h s | None => s end in
  let h := nextHandle s in
  mkPage (now s) (isMiddleScreen s) (hasScrollContainer s) (visibilityRatios s)
    (activeMenuKey s) (Some h) (timers s ++ [(h, now s + 100)]) (S h)
    (recomputations s).

(** The observer callback for [itemKey] receiving [intersectionRatio]. *)
Definition observe (key : MenuKey) (ratio : Q) (s : PageState) : PageState :=
  debouncedUpdateActiveMenu (with_ratios s (onIntersect key ratio (visibilityRatios s))).

(** [setupIntersectionObservers]: the old observers are stopped (they send no
    further events) and [visibilityRatios] is cleared; [updateTimer] is not
    touched. *)
Definition setupIntersectionObservers (s : PageState) : PageState :=
  with_ratios s [].

Inductive PageEvent :=
| Observe (t : nat) (key : MenuKey) (ratio : Q)
| Setup (t : nat)
| Tick (t : nat).

Definition page_step (s : PageState) (e : PageEvent) : PageState :=
  match e with
  | Observe t k r => observe k r (advance t s)
  | Setup t => setupIntersectionObservers (advance t s)
  | Tick t => advance t s
  end.

Definition run_page (evs : list PageEvent) (s : PageState) : PageState :=
  fold_left page_step evs s.

(** ** Reference notions the properties are stated with. *)

Definition mem (x : string) (l : list string) : bool := existsb (String.eqb x) l.

(** The names [sankeyData] registers for one record, in call order of
    [addNode], with the layer each call passes. *)
Definition conn_names (c : Connection) : list (string * nat) :=
  match chains_of c with
  | [] => []
  | cs => [(sourceIP_of c, 0); (rulePayload_of c, 1);
           (chainLast cs, 2); (chainFirst cs, 3)]
  end.

Definition encounters (conns : list Connection) : list (string * nat) :=
  flat_map conn_names conns.

(** The distinct names of a sequence in order of first occurrence. *)
Fixpoint nodup_first (seen : list string) (l : list string) : list string :=
  match l with
  | [] => []
  | x :: l' => if mem x seen then nodup_first seen l'
               else x :: nodup_first (x :: seen) l'
  end.

(** The layer of the first occurrence of [name]. *)
Definition first_layer (name : string) (E : list (string * nat)) : option nat :=
  option_map snd (find (fun p => String.eqb (fst p) name) E).

(** Position of the first occurrence of [x] in [l] ([length l] if absent). *)
Fixpoint index_of (x : string) (l : list string) : nat :=
  match l with
  | [] => 0
  | y :: l' => if String.eqb x y then 0 else S (index_of x l')
  end.

(** A record's three edges (source->rule, rule->chain last,
    chain last->chain first) under a naming of nodes by ids. *)
Definition conn_edges (ids : string -> nat) (c : Connection) : list (nat * nat) :=
  match chains_of c with
  | [] => []
  | cs => [(ids (sourceIP_of c), ids (rulePayload_of c));
           (ids (rulePayload_of c), ids (chainLast cs));
           (ids (chainLast cs), ids (chainFirst cs))]
  end.

Definition all_edges (ids : string -> nat) (conns : list Connection) : list (nat * nat) :=
  flat_map (conn_edges ids) conns.

Definition count_pair (p : nat * nat) (l : list (nat * nat)) : nat :=
  List.length (filter (fun q => Nat.eqb (fst q) (fst p) && Nat.eqb (snd q) (snd p)) l).

(** The id of the output node named [name] (0 if there is none). *)
Definition graph_id (g : SankeyData) (name : string) : nat :=
  match find (fun n => String.eqb (node_name n) name) (nodes g) with
  | Some n => node_id n
  | None => 0
  end.

Definition opt_nat_eqb (a b : option nat) : bool :=
  match a, b with
  | Some x, Some y => Nat.eqb x y
  | None, None => true
  | _, _ => false
  end.

(** The weight of the output edge from id [a] to id [b] (0 if absent). *)
Definition edge_weight (g : SankeyData) (a b : nat) : nat :=
  match find (fun l => opt_nat_eqb (source l) (Some a) && opt_nat_eqb (target l) (Some b))
              (links g) with
  | Some l => value l
  | None => 0
  end.

Definition link_pair (l : SLink) : option nat * option nat := (source l, target l).

(** Whether a (processed) record reproduces [name] in one of its roles. *)
Definition reproduces (name : string) (c : Connection) : bool :=
  match chains_of c with
  | [] => false
  | cs => String.eqb name (sourceIP_of c) || String.eqb name (rulePayload_of c)
          || String.eqb name (chainLast cs) || String.eqb name (chainFirst cs)
  end.

(** The label of the first field of [c] equal to [name], checked in the
    order source address, rule, last chain element, first chain element. *)
Definition role_in (c : Connection) (name : string) : NodeType :=
  let cs := chains_of c in
  if String.eqb name (sourceIP_of c) then sourceIPAddress
  else if String.eqb name (rulePayload_of c) then ruleMatch
  else if String.eqb name (chainLast cs) then proxyChainEntry
  else proxyChainExit.

(** A page state in which at most one debounce callback is pending, and
    it is the one [updateTimer] holds. *)
Definition single_flight (s : PageState) : Prop :=
  match updateTimer s with
  | None => timers s = []
  | Some h => exists d, timers s = [(h, d)] /\ h < nextHandle s
  end.

Definition ratio_in_range (r : Q) : Prop := (0 < r /\ r <= 1)%Q.

Definition observed_ratio (e : PageEvent) : Q :=
  match e with Observe _ _ r => r | _ => 0%Q end.

(** Observation events [(time, key, ratio)] where each arrives no earlier
    than the previous one and strictly within 100 time units of it. *)
Fixpoint quiet_burst (prev : nat) (evs : list (nat * MenuKey * Q)) : Prop :=
  match evs with
  | [] => True
  | (t, _, _) :: evs' => prev <= t /\ t < prev + 100 /\ quiet_burst t evs'
  end.

Definition observe_events (evs : list (nat * MenuKey * Q)) : list PageEvent :=
  map (fun '(t, k, r) => Observe t k r) evs.

Definition apply_observations (evs : list (nat * MenuKey * Q)) (m : VisMap) : VisMap :=
  fold_left (fun m '(_, k, r) => onIntersect k r m) evs m.

Definition last_time (t0 : nat) (evs : list (nat * MenuKey * Q)) : nat :=
  fold_left (fun _ '(t, _, _) => t) evs t0.

(** The ids [sankeyData] gives to names: positions in first-seen order. *)
Definition ids_of (E : list (string * nat)) (x : string) : nat :=
  index_of x (nodup_first [] (map fst E)).

(** Whether [c] has a one-element chain whose node has id [i] in [g]. *)
Definition single_hop_on (g : SankeyData) (i : nat) (c : Connection) : bool :=
  match chains_of c with
  | [x] => Nat.eqb (graph_id g x) i
  | _ => false
  end.

(** Invariant of the node registry after the [addNode] calls of [E]. *)
Definition node_inv (st : AggState) (E : list (string * nat)) : Prop :=
  let NF := nodup_first [] (map fst E) in
  nodeMap st = combine NF (seq 0 (List.length NF)) /\
  nodeIndex st = List.length NF /\
  map fst (layerMap st) = NF /\
  (forall y, JSMap.get String.eqb y (layerMap st) = first_layer y E).

(** Invariant of the edge counters after the edges [Ed]. *)
Definition link_inv (st : AggState) (Ed : list (nat * nat)) : Prop :=
  (forall k, In k (map fst (linkMap st)) -> exists a b, k = link_key a b) /\
  NoDup (map fst (linkMap st)) /\
  Forall (fun p => 1 <= snd p) (linkMap st) /\
  (forall a b, JSMap.get String.eqb (link_key a b) (linkMap st) =
               match count_pair (a, b) Ed with 0 => None | n => Some n end).

(** ** Chart options of the topology view. *)

(** The series label formatter
    [name.length > 15 ? name.substring(0, 15) + '...' : name], a JS string
    being its sequence of UTF-16 code units ([dot] is the unit of ['.']). *)
Definition label_formatter {A : Type} (dot : A) (name : list A) : list A :=
  if Nat.ltb 15 (List.length name) then (firstn 15 name ++ [dot; dot; dot])%list else name.

(** The i18n key behind each [t(...)] call of [getNodeTypeName]. *)
Definition nodeTypeKey (ty : NodeType) : string :=
  match ty with
  | sourceIPAddress => "sourceIPAddress"
  | ruleMatch => "ruleMatch"
  | proxyChainEntry => "proxyChainEntry"
  | proxyChainExit => "proxyChainExit"
  | unknown => "unknown"
  end.

(** [params.data] of the tooltip formatter: a node's [name], or an edge's
    [source], [target] and [value]. *)
Record TooltipData := mkTip {
  tip_name : string;
  tip_source : option nat;
  tip_target : option nat;
  tip_value : nat
}.

(** The data echarts passes for an output link. *)
Definition tip_of_link (l : SLink) : TooltipData :=
  mkTip "" (source l) (target l) (value l).

(** [sankeyData.value.nodes.find((n) => n.id === id)]; a [NaN] id
    ([None]) equals no node id. *)
Definition find_node (ns : list SNode) (id : option nat) : option SNode :=
  find (fun n => opt_nat_eqb (Some (node_id n)) id) ns.

Section Tooltip.
(** The translation function [t] of vue-i18n. *)
Variable t : string -> string.

(** [tooltip.formatter] *)
Definition tooltip_formatter (connections : list Connection) (dataType : string)
    (data : TooltipData) : string :=
  if String.eqb dataType "node" then
    tip_name data ++ "<br/>" ++ t "nodeType" ++ ": " ++
      t (nodeTypeKey (getNodeTypeName connections (tip_name data)))
  else if String.eqb dataType "edge" then
    let ns := nodes (sankeyData connections) in
    match find_node ns (tip_source data), find_node ns (tip_target data) with
    | Some sourceNode, Some targetNode =>
        node_name sourceNode ++ " → " ++ node_name targetNode ++ "<br/>" ++
          t "connectionCount" ++ ": " ++ string_of_nat (tip_value data)
    | _, _ => t "connectionCount" ++ ": " ++ string_of_nat (tip_value data)
    end
  else "".
End Tooltip.

(** What [updateChartData] does with the chart ([myChart] is always set). *)
Inductive ChartAction :=
| SetSeries (ns : list SNode) (ls : list SLink)
| ClearChart.

Definition updateChartData (newData : SankeyData) : ChartAction :=
  if Nat.ltb 0 (List.length (nodes newData)) then SetSeries (nodes newData) (links newData)
  else ClearChart.

(** The sum of the output link values. *)
Definition total_weight (g : SankeyData) : nat :=
  fold_right (fun l acc => value l + acc) 0 (links g).

(** The number of records with a non-empty chain. *)
Definition chained_count (conns : list Connection) : nat :=
  List.length (filter (fun c => match chains_of c with [] => false | _ => true end) conns).

(** ** Settings page: clicks and swipes. *)

(** [ref(splitOverviewPage.value ? MenuKey.general : MenuKey.overview)] *)
Definition initialActiveMenuKey (splitOverviewPage : bool) : MenuKey :=
  if splitOverviewPage then general else overview.

(** [handleMenuClick(key)]: the new [activeMenuKey] and the keys whose
    card [item-<key>] is looked up and scrolled into view. *)
Definition handleMenuClick (isMiddleScreen : bool) (items : list MenuKey) (key : MenuKey)
    : MenuKey * list MenuKey :=
  (key, if isMiddleScreen then
          match findIndex key items with Some _ => [key] | None => [] end
        else []).

(** [direction] of [useSwipe]. *)
Inductive SwipeDirection := swipe_left | swipe_right | swipe_up | swipe_down | swipe_none.

(** What the swipe watcher reads from the page: [isMiddleScreen], whether a
    modal dialog is open, the tag name of [document.activeElement] and the
    text of [window.getSelection()]. *)
Record SwipeEnv := mkSwipeEnv {
  env_middle : bool;
  modalOpen : bool;
  activeTag : option string;
  selection : option string
}.

(** [isInputActive()] *)
Definition isInputActive (e : SwipeEnv) : bool :=
  match activeTag e with
  | Some tag => String.eqb tag "INPUT" || String.eqb tag "TEXTAREA"
  | None => false
  end.

(** [window.getSelection()?.toString()?.length] *)
Definition selectionLength (e : SwipeEnv) : nat :=
  match selection e with Some s => String.length s | None => 0 end.

(** The watcher on [direction]: the new [activeMenuKey] and the cards
    scrolled into view.  A found index makes [getNextMenuKey] and
    [getPrevMenuKey] call [handleMenuClick]; [-1] makes them return. *)
Definition onSwipe (e : SwipeEnv) (items : list MenuKey) (dir : SwipeDirection)
    (active : MenuKey) : MenuKey * list MenuKey :=
  if negb (env_middle e) then (active, [])
  else if modalOpen e || isInputActive e || negb (Nat.eqb (selectionLength e) 0)
  then (active, [])
  else match dir with
       | swipe_right =>
           match findIndex active items with
           | None => (active, [])
           | Some _ => handleMenuClick (env_middle e) items (getPrevMenuKey items active)
           end
       | swipe_left =>
           match findIndex active items with
           | None => (active, [])
           | Some _ => handleMenuClick (env_middle e) items (getNextMenuKey items active)
           end
       | _ => (active, [])
       end.

(** ** Settings page: the intersection observers and [nextTick].  The
    callbacks queued with [nextTick] run in order when the tick is
    flushed: [RegisterObservers] is the callback of
    [setupIntersectionObservers], [RunSetup] the one of the watcher on
    [[menuItems, isMiddleScreen]]. *)
Inductive TickJob := RegisterObservers | RunSetup.

Record ObsState := mkObs {
  observers : list MenuKey;   (* [intersectionObservers], by observed key *)
  stopped : list MenuKey;     (* observers whose [stop] was called *)
  ratios : VisMap;            (* [visibilityRatios] *)
  tickQueue : list TickJob
}.

Section Observers.
Variables (isMiddleScreen hasScrollContainer : bool) (items : list MenuKey).
(** Whether [document.getElementById(`item-${key}`)] finds the card. *)
Variable present : MenuKey -> bool.

(** [setupIntersectionObservers] up to its [nextTick]. *)
Definition setup_sync (s : ObsState) : ObsState :=
  let q := if negb isMiddleScreen || negb hasScrollContainer then tickQueue s
           else (tickQueue s ++ [RegisterObservers])%list in
  mkObs [] (stopped s ++ observers s)%list [] q.

(** The [nextTick] callback: one observer per item whose card exists
    (a [MenuKey] is a non-empty string, so [!itemKey] never holds). *)
Definition register (s : ObsState) : ObsState :=
  mkObs (observers s ++ filter present items)%list (stopped s) (ratios s) (tickQueue s).

Definition run_job (j : TickJob) (s : ObsState) : ObsState :=
  match j with
  | RegisterObservers => register s
  | RunSetup => setup_sync s
  end.

Fixpoint flush_fuel (fuel : nat) (s : ObsState) : ObsState :=
  match fuel with
  | 0 => s
  | S fuel' =>
    match tickQueue s with
    | [] => s
    | j :: q => flush_fuel fuel' (run_job j (mkObs (observers s) (stopped s) (ratios s) q))
    end
  end.

(** Running the queued callbacks; a job queues at most one more, which
    queues none, so twice the queue length is enough. *)
Definition flushTicks (s : ObsState) : ObsState :=
  flush_fuel (2 * List.length (tickQueue s)) s.

(** The watcher on [[menuItems, isMiddleScreen]] firing. *)
Definition watch_fire (s : ObsState) : ObsState :=
  mkObs (observers s) (stopped s) (ratios s) (tickQueue s ++ [RunSetup])%list.
End Observers.

(** ==================================================================== *)
(** * Proofs *)

Open Scope list_scope.

Example ex_sankey1 :
  sankeyData [mkConn "10.0.0.1" "Match" "" (Some ["node-a"; "Proxy"])] =
  mkSankey [mkSNode 0 "10.0.0.1" "#5470c6"; mkSNode 1 "Match" "#91cc75";
            mkSNode 2 "Proxy" "#fac858"; mkSNode 3 "node-a" "#ee6666"]
           [mkSLink (Some 0) (Some 1) 1; mkSLink (Some 1) (Some 2) 1;
            mkSLink (Some 2) (Some 3) 1].
Proof. reflexivity. Qed.


(** ** Swipe navigation *)

(** C9: on the page's ordered menu key list (either placement of the
    overview item), "next" moves from index [i] to [(i + 1) mod n] and
    "previous" to [(i + n - 1) mod n]; so "next" from the last key gives the
    first key and "previous" from the first key gives the last key. *)
Theorem menu_swipe_wraps : forall splitOverviewPage : bool,
  let items := menuItems splitOverviewPage in
  let n := List.length items in
  getNextMenuKey items (last items general) = hd general items /\
  getPrevMenuKey items (hd general items) = last items general /\
  (forall i, i < n ->
     getNextMenuKey items (nth i items general) = nth ((i + 1) mod n) items general /\
     getPrevMenuKey items (nth i items general) = nth ((i + n - 1) mod n) items general).
Proof.
  intros sp items n.
  destruct sp; subst items n; cbn -[Nat.modulo];
    (split; [reflexivity | split; [reflexivity |]]);
    intros i Hi; do 5 (destruct i as [| i]; [split; reflexivity |]); lia.
Qed.

Example swipe_spec_example :
  let items := [general; backend; proxies; connections] in
  getNextMenuKey items connections = general /\
  getPrevMenuKey items general = connections.
Proof. split; reflexivity. Qed.

(** ** The most-visible decision *)

Lemma Qlt_bool_iff : forall a b, Qlt_bool a b = true <-> (a < b)%Q.
Proof.
  intros a b; unfold Qlt_bool; rewrite negb_true_iff; split; intro H.
  - apply Qnot_le_lt; intro H'; apply Qle_bool_iff in H'; congruence.
  - destruct (Qle_bool b a) eqn:E; [apply Qle_bool_iff in E; lra | reflexivity].
Qed.

Lemma Qlt_bool_false : forall a b, Qlt_bool a b = false -> (b <= a)%Q.
Proof.
  intros a b; unfold Qlt_bool; rewrite negb_false_iff; apply Qle_bool_iff.
Qed.

Lemma vis_scan_spec : forall m : VisMap,
  let '(mr, mk) := fold_left vis_step m (0%Q, None) in
  (mk = None /\ mr = 0%Q /\ Forall (fun p => snd p <= 0)%Q m) \/
  (exists l1 k r l2, m = l1 ++ (k, r) :: l2 /\ mk = Some k /\ mr = r /\ (0 < r)%Q /\
     Forall (fun p => snd p < r)%Q l1 /\ Forall (fun p => snd p <= r)%Q l2).
Proof.
  induction m as [| x m IH] using rev_ind.
  - left; repeat split; constructor.
  - destruct x as [k' r']. rewrite fold_left_app; simpl fold_left.
    destruct (fold_left vis_step m (0%Q, None)) as [mr mk].
    unfold vis_step; destruct (Qlt_bool mr r') eqn:E.
    + apply Qlt_bool_iff in E. right.
      destruct IH as [(-> & -> & Hm) | (l1 & k & r & l2 & -> & -> & -> & Hr & H1 & H2)].
      * exists m, k', r', []; repeat split; auto.
        eapply Forall_impl; [| exact Hm]; intros [? ?]; cbn; lra.
      * exists (l1 ++ (k, r) :: l2), k', r', []; repeat split; auto; try lra.
        apply Forall_app; split.
        -- eapply Forall_impl; [| exact H1]; intros [? ?]; cbn; lra.
        -- constructor; [cbn; lra |].
           eapply Forall_impl; [| exact H2]; intros [? ?]; cbn; lra.
    + apply Qlt_bool_false in E.
      destruct IH as [(-> & -> & Hm) | (l1 & k & r & l2 & -> & -> & -> & Hr & H1 & H2)].
      * left; repeat split; apply Forall_app; split; auto.
      * right; exists l1, k, r, (l2 ++ [(k', r')]); repeat split; auto.
        -- rewrite <- app_assoc; reflexivity.
        -- apply Forall_app; split; auto.
Qed.

(** C3: the scan returns a key [k] only when [k] is the first entry with the
    greatest ratio and that ratio is at least 0.3; it returns nothing exactly
    when every ratio is below 0.3 (in particular on the empty map); and on
    maps built by observation events: {A: 0.25, B: 0.35} selects B,
    {A: 0.25} selects nothing, {A: 0.5, B: 0.5} inserted A then B selects A. *)
Theorem selectMostVisible_spec :
  (forall (m : VisMap) k, selectMostVisible m = Some k ->
     exists l1 r l2, m = l1 ++ (k, r) :: l2 /\ (3 # 10 <= r)%Q /\
       Forall (fun p => snd p < r)%Q l1 /\ Forall (fun p => snd p <= r)%Q l2) /\
  (forall m : VisMap, selectMostVisible m = None <-> Forall (fun p => snd p < 3 # 10)%Q m) /\
  selectMostVisible [] = None /\
  selectMostVisible (onIntersect backend (35 # 100) (onIntersect general (25 # 100) []))
    = Some backend /\
  selectMostVisible (onIntersect general (25 # 100) []) = None /\
  selectMostVisible (onIntersect backend (1 # 2) (onIntersect general (1 # 2) []))
    = Some general.
Proof.
  repeat split; try reflexivity.
  - intros m k. unfold selectMostVisible.
    pose proof (vis_scan_spec m) as H.
    destruct (fold_left vis_step m (0%Q, None)) as [mr mk].
    destruct H as [(-> & _ & _) | (l1 & k' & r & l2 & -> & -> & -> & Hr & H1 & H2)];
      [discriminate |].
    destruct (Qle_bool (3 # 10) r) eqn:E; [| discriminate].
    intros [= <-]. apply Qle_bool_iff in E. exists l1, r, l2; auto.
  - unfold selectMostVisible.
    pose proof (vis_scan_spec m) as H.
    destruct (fold_left vis_step m (0%Q, None)) as [mr mk].
    destruct H as [(-> & _ & Hm) | (l1 & k' & r & l2 & -> & -> & -> & Hr & H1 & H2)].
    + intros _. eapply Forall_impl; [| exact Hm]; intros [? ?]; cbn; lra.
    + destruct (Qle_bool (3 # 10) r) eqn:E; [discriminate |].
      intros _. assert (Hr3 : (r < 3 # 10)%Q).
      { apply Qnot_le_lt; intro H'; apply Qle_bool_iff in H'; congruence. }
      apply Forall_app; split; [| constructor; [cbn; lra |]].
      * eapply Forall_impl; [| exact H1]; intros [? ?]; cbn; lra.
      * eapply Forall_impl; [| exact H2]; intros [? ?]; cbn; lra.
  - unfold selectMostVisible.
    pose proof (vis_scan_spec m) as H.
    destruct (fold_left vis_step m (0%Q, None)) as [mr mk].
    intro Hall.
    destruct H as [(-> & _ & _) | (l1 & k' & r & l2 & -> & -> & -> & Hr & H1 & H2)];
      [reflexivity |].
    apply Forall_app in Hall as [_ Hall]. inversion Hall as [| ? ? Hr3 _]; subst.
    cbn in Hr3.
    destruct (Qle_bool (3 # 10) r) eqn:E; [| reflexivity].
    apply Qle_bool_iff in E; lra.
Qed.

(** ** Facts about the [Map] model *)
Module JSMapFacts.
Section Facts.
Context {K V : Type} (eqb : K -> K -> bool)
        (eqb_iff : forall a b, eqb a b = true <-> a = b).

Lemma eqb_refl' : forall a, eqb a a = true.
Proof. intro a; apply eqb_iff; reflexivity. Qed.

Lemma eqb_neq : forall a b, a <> b -> eqb a b = false.
Proof.
  intros a b H; destruct (eqb a b) eqn:E; [apply eqb_iff in E; contradiction | reflexivity].
Qed.

Ltac eqb_case a b :=
  let E := fresh "E" in
  destruct (eqb a b) eqn:E; [apply eqb_iff in E; subst |].

Lemma get_set_eq : forall (m : list (K * V)) k v,
  JSMap.get eqb k (JSMap.set eqb k v m) = Some v.
Proof.
  induction m as [| [k0 v0] m IH]; intros k v; cbn.
  - rewrite eqb_refl'; reflexivity.
  - eqb_case k k0; cbn; [rewrite eqb_refl'; reflexivity |].
    rewrite E; apply IH.
Qed.

Lemma get_set_neq : forall (m : list (K * V)) k k' v, k' <> k ->
  JSMap.get eqb k' (JSMap.set eqb k v m) = JSMap.get eqb k' m.
Proof.
  induction m as [| [k0 v0] m IH]; intros k k' v Hne; cbn.
  - rewrite (eqb_neq _ _ Hne); reflexivity.
  - eqb_case k k0; cbn.
    + rewrite (eqb_neq _ _ Hne); reflexivity.
    + destruct (eqb k' k0); [reflexivity | apply IH; exact Hne].
Qed.

Lemma get_None_iff : forall (m : list (K * V)) k,
  JSMap.get eqb k m = None <-> ~ In k (map fst m).
Proof.
  induction m as [| [k0 v0] m IH]; intros k; cbn; [tauto |].
  eqb_case k k0.
  - split; [discriminate | intro H; exfalso; apply H; left; reflexivity].
  - rewrite IH; split; intros H H'; apply H; [destruct H' as [-> | H']; auto | auto].
    exfalso. rewrite eqb_refl' in E; discriminate.
Qed.

Lemma get_app : forall (m1 m2 : list (K * V)) k,
  JSMap.get eqb k (m1 ++ m2) =
  match JSMap.get eqb k m1 with Some v => Some v | None => JSMap.get eqb k m2 end.
Proof.
  induction m1 as [| [k0 v0] m1 IH]; intros m2 k; cbn; [reflexivity |].
  destruct (eqb k k0); [reflexivity | apply IH].
Qed.

Lemma set_absent : forall (m : list (K * V)) k v,
  JSMap.get eqb k m = None -> JSMap.set eqb k v m = m ++ [(k, v)].
Proof.
  induction m as [| [k0 v0] m IH]; intros k v H; cbn in *; [reflexivity |].
  destruct (eqb k k0); [discriminate | f_equal; apply IH; exact H].
Qed.

Lemma keys_set : forall (m : list (K * V)) k v x,
  In x (map fst (JSMap.set eqb k v m)) <-> In x (map fst m) \/ x = k.
Proof.
  induction m as [| [k0 v0] m IH]; intros k v x; cbn; [intuition congruence |].
  eqb_case k k0; cbn; [intuition congruence |].
  rewrite IH; intuition congruence.
Qed.

Lemma set_NoDup : forall (m : list (K * V)) k v,
  NoDup (map fst m) -> NoDup (map fst (JSMap.set eqb k v m)).
Proof.
  induction m as [| [k0 v0] m IH]; intros k v Hnd; cbn in *.
  - constructor; [intros [] | constructor].
  - inversion Hnd as [| ? ? Hnin Hnd']; subst.
    eqb_case k k0; cbn; constructor; auto.
    rewrite keys_set; intros [H | H]; [contradiction | subst].
    rewrite eqb_refl' in E; discriminate.
Qed.

Lemma keys_delete : forall (m : list (K * V)) k x,
  In x (map fst (JSMap.delete eqb k m)) -> In x (map fst m).
Proof.
  induction m as [| [k0 v0] m IH]; intros k x; cbn; [tauto |].
  destruct (eqb k k0); cbn; [auto | intros [H | H]; [auto | right; eapply IH; eauto]].
Qed.

Lemma delete_NoDup : forall (m : list (K * V)) k,
  NoDup (map fst m) -> NoDup (map fst (JSMap.delete eqb k m)).
Proof.
  induction m as [| [k0 v0] m IH]; intros k Hnd; cbn in *; [constructor |].
  inversion Hnd as [| ? ? Hnin Hnd']; subst.
  destruct (eqb k k0); cbn; [exact Hnd' |].
  constructor; [intro H; apply Hnin; eapply keys_delete; eauto | auto].
Qed.

Lemma get_delete_eq : forall (m : list (K * V)) k,
  NoDup (map fst m) -> JSMap.get eqb k (JSMap.delete eqb k m) = None.
Proof.
  induction m as [| [k0 v0] m IH]; intros k Hnd; cbn in *; [reflexivity |].
  inversion Hnd as [| ? ? Hnin Hnd']; subst.
  eqb_case k k0.
  - apply get_None_iff; exact Hnin.
  - cbn; rewrite E; auto.
Qed.

Lemma get_delete_neq : forall (m : list (K * V)) k k', k' <> k ->
  JSMap.get eqb k' (JSMap.delete eqb k m) = JSMap.get eqb k' m.
Proof.
  induction m as [| [k0 v0] m IH]; intros k k' Hne; cbn; [reflexivity |].
  eqb_case k k0; cbn.
  - rewrite (eqb_neq _ _ Hne); reflexivity.
  - destruct (eqb k' k0); [reflexivity | auto].
Qed.

Lemma set_Forall : forall (P : V -> Prop) (m : list (K * V)) k v,
  Forall (fun p => P (snd p)) m -> P v -> Forall (fun p => P (snd p)) (JSMap.set eqb k v m).
Proof.
  induction m as [| [k0 v0] m IH]; intros k v Hm Hv; cbn; [constructor; auto |].
  inversion Hm; subst.
  destruct (eqb k k0); constructor; auto.
Qed.

Lemma delete_Forall : forall (P : V -> Prop) (m : list (K * V)) k,
  Forall (fun p => P (snd p)) m -> Forall (fun p => P (snd p)) (JSMap.delete eqb k m).
Proof.
  induction m as [| [k0 v0] m IH]; intros k Hm; cbn; [constructor |].
  inversion Hm; subst.
  destruct (eqb k k0); [assumption | constructor; auto].
Qed.
End Facts.
End JSMapFacts.

Lemma MenuKey_eqb_iff : forall a b, MenuKey_eqb a b = true <-> a = b.
Proof. intros [] []; cbn; split; congruence. Qed.

Lemma String_eqb_iff : forall a b, String.eqb a b = true <-> a = b.
Proof. exact String.eqb_eq. Qed.

(** ** Node-type lookup *)

Lemma scan_node_type_none : forall name conns,
  Forall (fun c => reproduces name c = false) conns ->
  scan_node_type name conns = unknown.
Proof.
  intros name conns H; induction H as [| c conns Hc _ IH]; [reflexivity |].
  cbn [scan_node_type]. unfold reproduces in Hc.
  destruct (chains_of c) as [| x l]; [exact IH |].
  repeat rewrite orb_false_iff in Hc.
  destruct Hc as [[[H1 H2] H3] H4]; rewrite H1, H2, H3, H4; exact IH.
Qed.

Lemma scan_node_type_first : forall name pre c post,
  Forall (fun c' => reproduces name c' = false) pre ->
  reproduces name c = true ->
  scan_node_type name (pre ++ c :: post) = role_in c name.
Proof.
  intros name pre c post Hpre Hc.
  induction Hpre as [| c' pre Hc' _ IH]; cbn [Datatypes.app scan_node_type].
  - unfold reproduces, role_in in *.
    destruct (chains_of c) as [| x l]; [discriminate |].
    destruct (String.eqb name (sourceIP_of c)); [reflexivity |].
    destruct (String.eqb name (rulePayload_of c)); [reflexivity |].
    destruct (String.eqb name (chainLast (x :: l))); [reflexivity |].
    cbn [orb] in Hc; rewrite Hc; reflexivity.
  - unfold reproduces in Hc'.
    destruct (chains_of c') as [| x l]; [exact IH |].
    repeat rewrite orb_false_iff in Hc'.
    destruct Hc' as [[[H1 H2] H3] H4]; rewrite H1, H2, H3, H4; exact IH.
Qed.

(** C1 (counterexample): for a record whose chain is [node-a; Proxy], the
    lookup reports the last element [Proxy] as the chain entry and the first
    element [node-a] as the chain exit, the reverse of the claimed roles. *)
Lemma getNodeTypeName_last_is_entry :
  let conns := [mkConn "10.0.0.1" "Match" "" (Some ["node-a"; "Proxy"])] in
  getNodeTypeName conns "Proxy" = proxyChainEntry /\
  getNodeTypeName conns "node-a" = proxyChainExit /\
  proxyChainEntry <> proxyChainExit.
Proof. split; [reflexivity | split; [reflexivity | discriminate]]. Qed.

(** C1 (as amended): the lookup returns [unknown] when no record with a
    non-empty chain reproduces the name; otherwise it returns, for the first
    such record in input order, the label of the first field equal to the
    name in the order source address, rule, last chain element (labelled
    [proxyChainEntry]), first chain element (labelled [proxyChainExit]). *)
Theorem getNodeTypeName_spec : forall conns name,
  (Forall (fun c => reproduces name c = false) conns ->
   getNodeTypeName conns name = unknown) /\
  (forall pre c post, conns = pre ++ c :: post ->
     Forall (fun c' => reproduces name c' = false) pre ->
     reproduces name c = true ->
     getNodeTypeName conns name = role_in c name).
Proof.
  intros conns name; split.
  - intro H; unfold getNodeTypeName; destruct conns; [reflexivity |].
    apply scan_node_type_none; exact H.
  - intros pre c post -> Hpre Hc. unfold getNodeTypeName.
    destruct (pre ++ c :: post) eqn:E; [destruct pre; discriminate |].
    rewrite <- E; apply scan_node_type_first; assumption.
Qed.

Lemma getNodeTypeName_spec_witness :
  getNodeTypeName
    ([mkConn "Proxy" "Match" "" None; mkConn "10.0.0.2" "Match" "" (Some ["node-b"; "Other"])] ++
     mkConn "10.0.0.1" "Match" "" (Some ["node-a"; "Proxy"]) ::
     [mkConn "Proxy" "Match" "" (Some ["node-c"])]) "Proxy" =
  role_in (mkConn "10.0.0.1" "Match" "" (Some ["node-a"; "Proxy"])) "Proxy" /\
  role_in (mkConn "10.0.0.1" "Match" "" (Some ["node-a"; "Proxy"])) "Proxy" = proxyChainEntry /\
  getNodeTypeName [mkConn "Proxy" "Match" "" None;
                   mkConn "10.0.0.1" "Match" "" (Some ["node-a"; "Proxy"])] "nonexistent-name" =
  unknown.
Proof.
  split; [| split; [reflexivity |]].
  - apply (proj2 (getNodeTypeName_spec
             ([mkConn "Proxy" "Match" "" None; mkConn "10.0.0.2" "Match" "" (Some ["node-b"; "Other"])] ++
              mkConn "10.0.0.1" "Match" "" (Some ["node-a"; "Proxy"]) ::
              [mkConn "Proxy" "Match" "" (Some ["node-c"])]) "Proxy")
             [mkConn "Proxy" "Match" "" None; mkConn "10.0.0.2" "Match" "" (Some ["node-b"; "Other"])]
             (mkConn "10.0.0.1" "Match" "" (Some ["node-a"; "Proxy"]))
             [mkConn "Proxy" "Match" "" (Some ["node-c"])]);
      [reflexivity | repeat constructor | reflexivity].
  - apply (proj1 (getNodeTypeName_spec [mkConn "Proxy" "Match" "" None;
                   mkConn "10.0.0.1" "Match" "" (Some ["node-a"; "Proxy"])] "nonexistent-name")).
    repeat constructor.
Defined.

(** ** Empty and chain-less inputs *)

Lemma processConn_chainless : forall st c, chains_of c = [] -> processConn st c = st.
Proof. intros st c H; unfold processConn; rewrite H; reflexivity. Qed.

Lemma aggregate_chainless : forall conns st,
  Forall (fun c => chains_of c = []) conns -> fold_left processConn conns st = st.
Proof.
  intros conns st H; revert st; induction H as [| c conns Hc _ IH]; intro st; cbn;
    [reflexivity |].
  rewrite processConn_chainless by exact Hc; apply IH.
Qed.

(** The early return of [sankeyData] agrees with the general case. *)
Lemma sankeyData_eq : forall conns,
  sankeyData conns =
  mkSankey (map (to_node (aggregate conns)) (nodeMap (aggregate conns)))
           (map to_link (linkMap (aggregate conns))).
Proof. intros [| c conns]; reflexivity. Qed.

(** C6: the empty input, and any input whose records all have an empty
    chain, give [{nodes: [], links: []}]; a record with an empty chain leaves
    the aggregation state unchanged, so removing it changes nothing. *)
Theorem sankeyData_empty_or_chainless :
  sankeyData [] = mkSankey [] [] /\
  (forall conns, Forall (fun c => chains_of c = []) conns -> sankeyData conns = mkSankey [] []) /\
  (forall st c, chains_of c = [] -> processConn st c = st) /\
  (forall pre c post, chains_of c = [] ->
     sankeyData (pre ++ c :: post) = sankeyData (pre ++ post)).
Proof.
  split; [reflexivity | split; [| split]].
  - intros conns H; unfold sankeyData, aggregate.
    destruct conns as [| c conns]; [reflexivity |].
    rewrite aggregate_chainless by exact H; reflexivity.
  - exact processConn_chainless.
  - intros pre c post Hc.
    assert (Hagg : aggregate (pre ++ c :: post) = aggregate (pre ++ post)).
    { unfold aggregate; rewrite !fold_left_app; cbn.
      rewrite processConn_chainless by exact Hc; reflexivity. }
    rewrite !sankeyData_eq, Hagg; reflexivity.
Qed.

Lemma sankeyData_empty_or_chainless_witness :
  sankeyData [mkConn "10.0.0.1" "Match" "" (Some [])] = mkSankey [] [] /\
  processConn agg_init (mkConn "" "r" "" None) = agg_init /\
  sankeyData ([] ++ mkConn "" "r" "" None :: []) = sankeyData [].
Proof.
  split; [| split].
  - apply (proj1 (proj2 sankeyData_empty_or_chainless)); repeat constructor.
  - apply (proj1 (proj2 (proj2 sankeyData_empty_or_chainless))); reflexivity.
  - apply (proj2 (proj2 (proj2 sankeyData_empty_or_chainless))); reflexivity.
Defined.

(** ** The visibility map over page events *)

Lemma fire_due_ratios : forall fuel t s,
  visibilityRatios (fire_due fuel t s) = visibilityRatios s.
Proof.
  induction fuel as [| fuel IH]; intros t s; cbn; [reflexivity |].
  destruct (find _ (timers s)) as [[h d] |]; [rewrite IH |]; reflexivity.
Qed.

Lemma advance_ratios : forall t s, visibilityRatios (advance t s) = visibilityRatios s.
Proof. intros t s; unfold advance; cbn; apply fire_due_ratios. Qed.

Lemma debounced_ratios : forall s,
  visibilityRatios (debouncedUpdateActiveMenu s) = visibilityRatios s.
Proof. intro s; unfold debouncedUpdateActiveMenu; destruct (updateTimer s); reflexivity. Qed.

Lemma page_step_ratios : forall s e,
  visibilityRatios (page_step s e) =
  match e with
  | Observe _ k r => onIntersect k r (visibilityRatios s)
  | Setup _ => []
  | Tick _ => visibilityRatios s
  end.
Proof.
  intros s [t k r | t | t]; cbn [page_step].
  - unfold observe; rewrite debounced_ratios; cbn [with_ratios visibilityRatios].
    rewrite advance_ratios; reflexivity.
  - reflexivity.
  - apply advance_ratios.
Qed.

Lemma onIntersect_NoDup : forall k r m,
  NoDup (map fst m) -> NoDup (map fst (onIntersect k r m)).
Proof.
  intros k r m H; unfold onIntersect; destruct (Qlt_bool 0 r).
  - apply JSMapFacts.set_NoDup; [exact MenuKey_eqb_iff | exact H].
  - apply JSMapFacts.delete_NoDup; exact H.
Qed.

Lemma onIntersect_range : forall k r m, (r <= 1)%Q ->
  Forall (fun p => ratio_in_range (snd p)) m ->
  Forall (fun p => ratio_in_range (snd p)) (onIntersect k r m).
Proof.
  intros k r m Hr H; unfold onIntersect; destruct (Qlt_bool 0 r) eqn:E.
  - apply Qlt_bool_iff in E.
    apply (JSMapFacts.set_Forall MenuKey_eqb ratio_in_range); [exact H | split; assumption].
  - apply (JSMapFacts.delete_Forall MenuKey_eqb ratio_in_range); exact H.
Qed.

(** C7: an observation with a positive ratio sets the key to that ratio
    (whatever it held), one with ratio [<= 0] removes the key, other keys
    are untouched; hence along any sequence of page events whose observed
    ratios are at most 1 (the range of [intersectionRatio]), the map keeps
    one entry per key and every entry has a ratio in (0, 1]. *)
Theorem visibility_ratios_in_range :
  (forall k r m, (0 < r)%Q ->
     JSMap.get MenuKey_eqb k (onIntersect k r m) = Some r) /\
  (forall k r m, (r <= 0)%Q -> NoDup (map fst m) ->
     JSMap.get MenuKey_eqb k (onIntersect k r m) = None) /\
  (forall k k' r m, k' <> k ->
     JSMap.get MenuKey_eqb k' (onIntersect k r m) = JSMap.get MenuKey_eqb k' m) /\
  (forall evs s,
     Forall (fun e => observed_ratio e <= 1)%Q evs ->
     NoDup (map fst (visibilityRatios s)) ->
     Forall (fun p => ratio_in_range (snd p)) (visibilityRatios s) ->
     NoDup (map fst (visibilityRatios (run_page evs s))) /\
     Forall (fun p => ratio_in_range (snd p)) (visibilityRatios (run_page evs s))).
Proof.
  split; [| split; [| split]].
  - intros k r m Hr; unfold onIntersect.
    replace (Qlt_bool 0 r) with true by (symmetry; apply Qlt_bool_iff; exact Hr).
    apply JSMapFacts.get_set_eq; exact MenuKey_eqb_iff.
  - intros k r m Hr Hnd; unfold onIntersect.
    destruct (Qlt_bool 0 r) eqn:E; [apply Qlt_bool_iff in E; lra |].
    apply JSMapFacts.get_delete_eq; [exact MenuKey_eqb_iff | exact Hnd].
  - intros k k' r m Hne; unfold onIntersect; destruct (Qlt_bool 0 r).
    + apply JSMapFacts.get_set_neq; [exact MenuKey_eqb_iff | exact Hne].
    + apply JSMapFacts.get_delete_neq; [exact MenuKey_eqb_iff | exact Hne].
  - intros evs; induction evs as [| e evs IH]; intros s Hevs Hnd Hr; [split; assumption |].
    inversion Hevs as [| ? ? He Hevs']; subst.
    cbn [run_page fold_left]; apply IH; [exact Hevs' | |];
      rewrite page_step_ratios; destruct e as [t k r | t | t]; cbn in He.
    + apply onIntersect_NoDup; exact Hnd.
    + constructor.
    + exact Hnd.
    + apply onIntersect_range; assumption.
    + constructor.
    + exact Hr.
Qed.

Lemma visibility_ratios_in_range_witness :
  JSMap.get MenuKey_eqb general (onIntersect general (1 # 2) []) = Some (1 # 2) /\
  JSMap.get MenuKey_eqb general (onIntersect general 0 [(general, 1 # 2)]) = None /\
  JSMap.get MenuKey_eqb backend (onIntersect general 0 [(backend, 1 # 2)]) = Some (1 # 2) /\
  Forall (fun p => ratio_in_range (snd p))
    (visibilityRatios (run_page [Observe 0 general (1 # 2); Observe 5 backend 1;
                                 Observe 9 general 0] (page_init true true overview))).
Proof.
  split; [| split; [| split]].
  - apply (proj1 visibility_ratios_in_range); reflexivity.
  - apply (proj1 (proj2 visibility_ratios_in_range)); [apply Qle_refl | repeat constructor; intros []].
  - apply (proj1 (proj2 (proj2 visibility_ratios_in_range))); discriminate.
  - apply (proj2 (proj2 (proj2 visibility_ratios_in_range))
             [Observe 0 general (1 # 2); Observe 5 backend 1; Observe 9 general 0]
             (page_init true true overview));
      [repeat constructor; cbn; discriminate | constructor | constructor].
Defined.

(** ** Rebuilding the observers *)

Lemma advance_not_due : forall s t h d,
  timers s = [(h, d)] -> t < d -> advance t s = with_now s (Nat.max (now s) t).
Proof.
  intros s t h d Hts Ht; unfold advance; rewrite Hts; cbn [List.length fire_due].
  rewrite Hts; cbn.
  replace (Nat.leb d t) with false by (symmetry; apply Nat.leb_gt; exact Ht).
  reflexivity.
Qed.

Lemma advance_due : forall s t h d,
  timers s = [(h, d)] -> d <= t ->
  advance t s = with_now (timer_callback (clearTimeout h s)) (Nat.max (now s) t).
Proof.
  intros s t h d Hts Ht; unfold advance; rewrite Hts; cbn [List.length fire_due].
  rewrite Hts; cbn [find snd].
  replace (Nat.leb d t) with true by (symmetry; apply Nat.leb_le; exact Ht).
  reflexivity.
Qed.

Lemma fire_due_empty_map : forall fuel t s,
  visibilityRatios s = [] ->
  activeMenuKey (fire_due fuel t s) = activeMenuKey s /\
  exists j, recomputations (fire_due fuel t s) = recomputations s ++ repeat [] j.
Proof.
  induction fuel as [| fuel IH]; intros t s Hs; cbn.
  - split; [reflexivity | exists 0; rewrite app_nil_r; reflexivity].
  - destruct (find _ (timers s)) as [[h d] |].
    + destruct (IH t (timer_callback (clearTimeout h s))) as [Ha [j Hj]];
        [cbn; exact Hs |].
      rewrite Ha, Hj; cbn; rewrite Hs.
      split; [destruct (isMiddleScreen s), (hasScrollContainer s); reflexivity |].
      exists (S j); rewrite <- app_assoc; reflexivity.
    + split; [reflexivity | exists 0; rewrite app_nil_r; reflexivity].
Qed.

(** C2 (counterexample): a debounce timer scheduled at time 0 survives the
    rebuild of the observers at time 10 and fires at time 100. *)
Lemma setup_keeps_pending_timer :
  let s := run_page [Observe 0 general (1 # 2); Setup 10] (page_init true true overview) in
  visibilityRatios s = [] /\ updateTimer s = Some 1 /\ timers s = [(1, 100)] /\
  recomputations s = [] /\
  recomputations (run_page [Tick 100] s) = [[]].
Proof. repeat split; reflexivity. Qed.

(** C2 (as amended): rebuilding the observers stops every old observer and
    clears every visibility entry at once, but leaves the pending debounce
    timer in place: before its deadline it is still pending and nothing is
    recomputed; at its deadline it fires, runs exactly one recomputation,
    which reads the cleared map, and so leaves [activeMenuKey] unchanged.
    Whatever is pending, a callback firing before any new observation
    reads the cleared map and leaves [activeMenuKey] unchanged. *)
Theorem setup_clears_map_keeps_timer :
  (forall mid cont o,
     observers (setup_sync mid cont o) = [] /\
     stopped (setup_sync mid cont o) = stopped o ++ observers o /\
     ratios (setup_sync mid cont o) = []) /\
  forall s,
  let s' := setupIntersectionObservers s in
  visibilityRatios s' = [] /\
  updateTimer s' = updateTimer s /\
  timers s' = timers s /\
  (forall t, activeMenuKey (advance t s') = activeMenuKey s /\
     exists j, recomputations (advance t s') = recomputations s ++ repeat [] j) /\
  (forall h d, updateTimer s = Some h -> timers s = [(h, d)] ->
     (forall t, t < d ->
        updateTimer (advance t s') = Some h /\ timers (advance t s') = [(h, d)] /\
        recomputations (advance t s') = recomputations s) /\
     (forall t, d <= t ->
        updateTimer (advance t s') = None /\ timers (advance t s') = [] /\
        recomputations (advance t s') = recomputations s ++ [[]] /\
        activeMenuKey (advance t s') = activeMenuKey s)).
Proof.
  split.
  { intros mid cont o; unfold setup_sync; repeat split. }
  intros s s'. split; [reflexivity | split; [reflexivity | split; [reflexivity | split]]].
  - intro t.
    destruct (fire_due_empty_map (List.length (timers s')) t s' eq_refl) as [Ha Hr].
    unfold advance; split; [exact Ha | exact Hr].
  - intros h d Hu Ht. assert (Ht' : timers s' = [(h, d)]) by exact Ht.
    split.
    + intros t Hlt. rewrite (advance_not_due s' t h d Ht' Hlt).
      repeat split; [exact Hu | exact Ht].
    + intros t Hle. rewrite (advance_due s' t h d Ht' Hle).
      subst s'; unfold setupIntersectionObservers, with_ratios, with_now, timer_callback,
        clearTimeout, with_timers; cbn [timers updateTimer recomputations activeMenuKey
        visibilityRatios isMiddleScreen hasScrollContainer].
      rewrite Ht; cbn [filter fst negb]; rewrite Nat.eqb_refl; cbn [negb].
      repeat split.
      unfold updateActiveMenuByVisibility.
      destruct (isMiddleScreen s), (hasScrollContainer s); reflexivity.
Qed.

Lemma setup_clears_map_keeps_timer_witness :
  updateTimer (run_page [Observe 0 general (1 # 2)] (page_init true true overview)) = Some 1 /\
  timers (run_page [Observe 0 general (1 # 2)] (page_init true true overview)) = [(1, 100)] /\
  recomputations
    (advance 100 (setupIntersectionObservers
                    (run_page [Observe 0 general (1 # 2)] (page_init true true overview)))) =
  recomputations (run_page [Observe 0 general (1 # 2)] (page_init true true overview)) ++ [[]].
Proof.
  assert (Hu : updateTimer (run_page [Observe 0 general (1 # 2)] (page_init true true overview))
               = Some 1) by reflexivity.
  assert (Ht : timers (run_page [Observe 0 general (1 # 2)] (page_init true true overview))
               = [(1, 100)]) by reflexivity.
  split; [exact Hu | split; [exact Ht |]].
  destruct (proj2 setup_clears_map_keeps_timer
              (run_page [Observe 0 general (1 # 2)] (page_init true true overview)))
    as (_ & _ & _ & _ & Hfire).
  destruct (Hfire 1 100 Hu Ht) as [_ Hdue].
  destruct (Hdue 100 (le_n 100)) as (_ & _ & Hrec & _).
  exact Hrec.
Defined.

(** ** The debounce *)

Lemma fire_due_single_flight : forall fuel t s,
  single_flight s -> single_flight (fire_due fuel t s).
Proof.
  induction fuel as [| fuel IH]; intros t s Hs; cbn [fire_due]; [exact Hs |].
  destruct (find _ (timers s)) as [[h d] |] eqn:Ef; [| exact Hs].
  apply IH. unfold single_flight in *; cbn.
  destruct (updateTimer s) as [h0 |].
  - destruct Hs as [d0 [Hts _]]. rewrite Hts in *. cbn in Ef |- *.
    destruct (Nat.leb d0 t); [| discriminate]. injection Ef as <- <-.
    rewrite Nat.eqb_refl; reflexivity.
  - rewrite Hs in Ef; discriminate.
Qed.

Lemma advance_single_flight : forall t s, single_flight s -> single_flight (advance t s).
Proof.
  intros t s Hs; unfold advance.
  pose proof (fire_due_single_flight (List.length (timers s)) t s Hs) as H.
  unfold single_flight in *; cbn; exact H.
Qed.

Lemma debounced_timers : forall s, single_flight s ->
  updateTimer (debouncedUpdateActiveMenu s) = Some (nextHandle s) /\
  timers (debouncedUpdateActiveMenu s) = [(nextHandle s, now s + 100)] /\
  nextHandle (debouncedUpdateActiveMenu s) = S (nextHandle s) /\
  now (debouncedUpdateActiveMenu s) = now s /\
  recomputations (debouncedUpdateActiveMenu s) = recomputations s /\
  visibilityRatios (debouncedUpdateActiveMenu s) = visibilityRatios s.
Proof.
  intros s Hs; unfold single_flight, debouncedUpdateActiveMenu in *.
  destruct (updateTimer s) as [h |].
  - destruct Hs as [d [Hts _]]; cbn; rewrite Hts; cbn; rewrite Nat.eqb_refl.
    repeat split.
  - cbn; rewrite Hs; repeat split.
Qed.

Lemma debounced_single_flight : forall s,
  single_flight s -> single_flight (debouncedUpdateActiveMenu s).
Proof.
  intros s Hs; destruct (debounced_timers s Hs) as (Hu & Ht & Hn & _).
  unfold single_flight; rewrite Hu, Ht, Hn; eauto.
Qed.

Lemma page_step_single_flight : forall s e,
  single_flight s -> single_flight (page_step s e).
Proof.
  intros s [t k r | t | t] Hs; cbn [page_step].
  - unfold observe; apply debounced_single_flight.
    pose proof (advance_single_flight t s Hs) as H; unfold single_flight in *; exact H.
  - pose proof (advance_single_flight t s Hs) as H; unfold single_flight in *; exact H.
  - apply advance_single_flight; exact Hs.
Qed.

Lemma run_page_single_flight : forall evs s,
  single_flight s -> single_flight (run_page evs s).
Proof.
  induction evs as [| e evs IH]; intros s Hs; [exact Hs |].
  apply IH, page_step_single_flight; exact Hs.
Qed.

Lemma burst_run : forall evs s t,
  quiet_burst t evs -> now s = t ->
  (exists h, updateTimer s = Some h /\ timers s = [(h, t + 100)] /\ h < nextHandle s) ->
  let s1 := run_page (observe_events evs) s in
  now s1 = last_time t evs /\
  (exists h, updateTimer s1 = Some h /\ timers s1 = [(h, last_time t evs + 100)] /\
             h < nextHandle s1) /\
  recomputations s1 = recomputations s /\
  visibilityRatios s1 = apply_observations evs (visibilityRatios s).
Proof.
  induction evs as [| [[t' k] r] evs IH]; intros s t Hq Hn Hpend s1.
  - subst s1; cbn; repeat split; auto.
  - destruct Hq as (Hle & Hlt & Hq). destruct Hpend as (h & Hu & Hts & Hh).
    set (s' := page_step s (Observe t' k r)).
    assert (Hadv : advance t' s = with_now s t').
    { rewrite (advance_not_due s t' h (t + 100) Hts) by lia.
      f_equal; lia. }
    assert (Hsf : single_flight (with_ratios (with_now s t')
                                  (onIntersect k r (visibilityRatios s)))).
    { unfold single_flight; cbn; rewrite Hu; eauto. }
    destruct (debounced_timers _ Hsf) as (Hu' & Ht' & Hn' & Hnow' & Hrc' & Hr').
    assert (Hs' : s' = debouncedUpdateActiveMenu
                         (with_ratios (with_now s t') (onIntersect k r (visibilityRatios s)))).
    { subst s'; cbn [page_step]; unfold observe; rewrite Hadv; reflexivity. }
    destruct (IH s' t' Hq) as (H1 & H2 & H3 & H4).
    + rewrite Hs', Hnow'; reflexivity.
    + exists (nextHandle s); rewrite Hs', Hu', Ht', Hn'; cbn; repeat split; lia.
    + subst s1; cbn [observe_events map run_page fold_left] in *.
      fold (observe_events evs); fold s'.
      unfold run_page in H1, H2, H3, H4.
      split; [exact H1 | split; [exact H2 | split]].
      * rewrite H3, Hs', Hrc'; reflexivity.
      * rewrite H4, Hs', Hr'; reflexivity.
Qed.

(** C8: at most one debounce callback is pending in every state reachable
    from page load (and every page event keeps it so); scheduling replaces
    the pending callback by a single new one with a fresh handle; and a
    burst of observation events, each strictly within 100 time units of the
    previous one, starting when nothing is pending, runs no callback during
    the burst and exactly one once 100 time units have passed after the last
    event, which reads the map after all events of the burst. *)
Theorem debounce_single_flight :
  (forall s e, single_flight s -> single_flight (page_step s e)) /\
  (forall middle container active evs,
     single_flight (run_page evs (page_init middle container active))) /\
  (forall s, single_flight s ->
     updateTimer (debouncedUpdateActiveMenu s) = Some (nextHandle s) /\
     timers (debouncedUpdateActiveMenu s) = [(nextHandle s, now s + 100)] /\
     (forall h, updateTimer s = Some h -> h <> nextHandle s)) /\
  (forall s t1 k1 r1 evs T,
     single_flight s -> updateTimer s = None -> now s <= t1 -> quiet_burst t1 evs ->
     let s1 := run_page (Observe t1 k1 r1 :: observe_events evs) s in
     let tN := last_time t1 evs in
     recomputations s1 = recomputations s /\
     (T < tN + 100 -> recomputations (advance T s1) = recomputations s) /\
     (tN + 100 <= T -> recomputations (advance T s1) =
        recomputations s ++
        [apply_observations evs (onIntersect k1 r1 (visibilityRatios s))])).
Proof.
  split; [exact page_step_single_flight | split; [| split]].
  - intros middle container active evs; apply run_page_single_flight.
    reflexivity.
  - intros s Hs; destruct (debounced_timers s Hs) as (Hu & Ht & _).
    split; [exact Hu | split; [exact Ht |]].
    intros h Hh; unfold single_flight in Hs; rewrite Hh in Hs.
    destruct Hs as [_ [_ Hlt]]; lia.
  - intros s t1 k1 r1 evs T Hs Hnone Hnow Hq s1 tN.
    assert (Hts : timers s = []) by (unfold single_flight in Hs; rewrite Hnone in Hs; exact Hs).
    assert (Hadv : advance t1 s = with_now s t1).
    { unfold advance; rewrite Hts; cbn [List.length fire_due]; f_equal; lia. }
    set (X := with_ratios (with_now s t1) (onIntersect k1 r1 (visibilityRatios s))).
    assert (HsfX : single_flight X) by (unfold single_flight; cbn; rewrite Hnone; exact Hts).
    destruct (debounced_timers X HsfX) as (Hu & Ht & Hn & Hnw & Hrc & Hr).
    assert (Hstep : page_step s (Observe t1 k1 r1) = debouncedUpdateActiveMenu X).
    { cbn [page_step]; unfold observe; rewrite Hadv; reflexivity. }
    assert (Hn1 : now (debouncedUpdateActiveMenu X) = t1) by (etransitivity; [exact Hnw | reflexivity]).
    assert (Hp1 : exists h, updateTimer (debouncedUpdateActiveMenu X) = Some h /\
                    timers (debouncedUpdateActiveMenu X) = [(h, t1 + 100)] /\
                    h < nextHandle (debouncedUpdateActiveMenu X)).
    { exists (nextHandle X); rewrite Hu, Ht, Hn; cbn; repeat split; lia. }
    destruct (burst_run evs (debouncedUpdateActiveMenu X) t1 Hq Hn1 Hp1)
      as (H1 & H2 & H3 & H4).
    assert (Hs1 : s1 = run_page (observe_events evs) (debouncedUpdateActiveMenu X)).
    { subst s1; cbn [run_page fold_left]; rewrite Hstep; reflexivity. }
    rewrite <- Hs1 in H1, H2, H3, H4.
    destruct H2 as (h & Hu1 & Ht1 & _).
    rewrite Hrc in H3; rewrite Hr in H4.
    split; [exact H3 | split]; intro HT.
    + rewrite (advance_not_due s1 T h (tN + 100) Ht1 HT).
      cbn [recomputations with_now]; exact H3.
    + rewrite (advance_due s1 T h (tN + 100) Ht1 HT).
      cbn [recomputations with_now timer_callback clearTimeout with_timers].
      rewrite H3; f_equal; f_equal; exact H4.
Qed.

Lemma debounce_single_flight_witness :
  let s0 := page_init true true overview in
  single_flight (page_step s0 (Observe 0 general (1 # 2))) /\
  timers (debouncedUpdateActiveMenu s0) = [(1, 100)] /\
  recomputations (advance 250 (run_page (Observe 10 general (1 # 2) ::
     observe_events [(60, backend, 7 # 10); (150, general, 0%Q)]) s0)) =
     [apply_observations [(60, backend, 7 # 10); (150, general, 0%Q)]
        (onIntersect general (1 # 2) [])].
Proof.
  split; [| split].
  - apply (proj1 debounce_single_flight); reflexivity.
  - apply (proj1 (proj2 (proj2 debounce_single_flight))); reflexivity.
  - pose proof (proj2 (proj2 (proj2 debounce_single_flight))
             (page_init true true overview) 10 general (1 # 2)
             [(60, backend, 7 # 10); (150, general, 0%Q)] 250
             eq_refl eq_refl (le_0_n 10) ltac:(cbn; repeat split; lia)) as H.
    apply (proj2 (proj2 H)). cbn; lia.
Defined.

(** ** Edge keys: [`${a}-${b}`] parses back to [(a, b)] *)

Fixpoint sep_free (c : ascii) (s : string) : Prop :=
  match s with
  | EmptyString => True
  | String a s' => a <> c /\ sep_free c s'
  end.

Lemma split_sep_free : forall c s, sep_free c s -> split c s = [s].
Proof.
  intros c s; induction s as [| a s IH]; intros H; cbn in *; [reflexivity |].
  destruct H as [Ha Hs]; rewrite IH by exact Hs.
  destruct (Ascii.eqb a c) eqn:E; [apply Ascii.eqb_eq in E; contradiction | reflexivity].
Qed.

Lemma split_app_sep : forall c s1 s2, sep_free c s1 ->
  split c (s1 ++ String c s2) = s1 :: split c s2.
Proof.
  intros c s1 s2; induction s1 as [| a s1 IH]; intros H; cbn in *.
  - rewrite Ascii.eqb_refl; reflexivity.
  - destruct H as [Ha Hs]; rewrite IH by exact Hs.
    destruct (Ascii.eqb a c) eqn:E; [apply Ascii.eqb_eq in E; contradiction | reflexivity].
Qed.

Lemma digits_sep_free : forall d, sep_free "-" (NilEmpty.string_of_uint d).
Proof. induction d; cbn; split; auto; discriminate. Qed.

Lemma string_of_nat_sep_free : forall n, sep_free "-" (string_of_nat n).
Proof.
  intro n; unfold string_of_nat, NilZero.string_of_uint.
  destruct (Nat.to_uint n); try apply digits_sep_free.
  cbn; split; [discriminate | exact I].
Qed.

Lemma Number_string_of_nat : forall n, Number (string_of_nat n) = Some n.
Proof.
  intro n; unfold Number, string_of_nat.
  destruct (Nat.to_uint n) eqn:E.
  1: { cbn. f_equal. rewrite <- (DecimalNat.Unsigned.of_to n), E; reflexivity. }
  all: rewrite NilZero.usu by discriminate; rewrite <- E, DecimalNat.Unsigned.of_to;
    reflexivity.
Qed.

Lemma to_link_key : forall a b v, to_link (link_key a b, v) = mkSLink (Some a) (Some b) v.
Proof.
  intros a b v; unfold to_link, link_key; cbn [String.append].
  rewrite split_app_sep by apply string_of_nat_sep_free.
  rewrite (split_sep_free _ (string_of_nat b)) by apply string_of_nat_sep_free.
  cbn; rewrite !Number_string_of_nat; reflexivity.
Qed.

Lemma link_key_inj : forall a b a' b', link_key a b = link_key a' b' -> a = a' /\ b = b'.
Proof.
  intros a b a' b' H.
  pose proof (to_link_key a b 0) as H1; pose proof (to_link_key a' b' 0) as H2.
  rewrite H in H1; rewrite H1 in H2; injection H2; auto.
Qed.

(** ** First-seen deduplication *)

Lemma mem_In : forall x l, mem x l = true <-> In x l.
Proof.
  intros x l; unfold mem; rewrite existsb_exists; split.
  - intros [y [Hy E]]; apply String.eqb_eq in E; subst; exact Hy.
  - intros H; exists x; split; [exact H | apply String.eqb_refl].
Qed.

Lemma mem_ext : forall x l1 l2, (In x l1 <-> In x l2) -> mem x l1 = mem x l2.
Proof.
  intros x l1 l2 H; destruct (mem x l1) eqn:E1, (mem x l2) eqn:E2; auto; exfalso.
  - apply mem_In, H, mem_In in E1; congruence.
  - apply mem_In, H, mem_In in E2; congruence.
Qed.

Lemma nf_In : forall l seen x, In x (nodup_first seen l) <-> In x l /\ ~ In x seen.
Proof.
  induction l as [| a l IH]; intros seen x; cbn; [tauto |].
  destruct (mem a seen) eqn:E.
  - apply mem_In in E. rewrite IH. split; [tauto |].
    intros [[-> | H] Hn]; [contradiction | tauto].
  - cbn. rewrite IH. cbn.
    assert (~ In a seen) by (intro H; apply mem_In in H; congruence).
    split; [intros [-> | [H1 H2]]; tauto |].
    intros [[-> | H1] H2]; [left; reflexivity |].
    destruct (String.eqb_spec a x); [left; exact e | right; split; [exact H1 | intuition]].
Qed.

Lemma nf_NoDup : forall l seen, NoDup (nodup_first seen l).
Proof.
  induction l as [| a l IH]; intros seen; cbn; [constructor |].
  destruct (mem a seen); [apply IH |].
  constructor; [| apply IH].
  rewrite nf_In; cbn; tauto.
Qed.

Lemma nf_app1 : forall l seen x,
  nodup_first seen (l ++ [x]) =
  nodup_first seen l ++ (if mem x (seen ++ l) then [] else [x]).
Proof.
  induction l as [| a l IH]; intros seen x; cbn.
  - rewrite app_nil_r; destruct (mem x seen); reflexivity.
  - destruct (mem a seen) eqn:E.
    + rewrite IH. rewrite (mem_ext x (seen ++ l) (seen ++ a :: l)); [reflexivity |].
      apply mem_In in E. rewrite !in_app_iff; cbn. intuition congruence.
    + rewrite IH. cbn [app].
      rewrite (mem_ext x ((a :: seen) ++ l) (seen ++ a :: l)); [reflexivity |].
      rewrite !in_app_iff; cbn. tauto.
Qed.

Lemma nf_prefix : forall l2 l1,
  exists r, nodup_first [] (l1 ++ l2) = nodup_first [] l1 ++ r.
Proof.
  induction l2 as [| x l2 IH] using rev_ind; intros l1.
  - exists []; rewrite !app_nil_r; reflexivity.
  - destruct (IH l1) as [r Hr]. rewrite app_assoc, nf_app1, Hr, <- app_assoc.
    eexists; reflexivity.
Qed.

Lemma index_of_app : forall x l1 l2, In x l1 -> index_of x (l1 ++ l2) = index_of x l1.
Proof.
  induction l1 as [| y l1 IH]; intros l2 H; cbn in *; [contradiction |].
  destruct (String.eqb x y) eqn:E; [reflexivity |].
  f_equal; apply IH. destruct H as [-> | H]; [rewrite String.eqb_refl in E; discriminate | exact H].
Qed.

Lemma ids_of_stable : forall E F x, In x (map fst E) -> ids_of (E ++ F) x = ids_of E x.
Proof.
  intros E F x H; unfold ids_of. rewrite map_app.
  destruct (nf_prefix (map fst F) (map fst E)) as [r Hr]; rewrite Hr.
  apply index_of_app, nf_In; split; [exact H | intros []].
Qed.

(** ** The node registry *)

Lemma combine_app' : forall {A B} (l1 l3 : list A) (l2 l4 : list B),
  List.length l1 = List.length l2 -> combine (l1 ++ l3) (l2 ++ l4) = combine l1 l2 ++ combine l3 l4.
Proof.
  intros A B l1; induction l1 as [| a l1 IH]; intros l3 [| b l2] l4 H; cbn in *;
    try discriminate; [reflexivity |].
  f_equal; apply IH; lia.
Qed.

Lemma get_combine_seq : forall L k x,
  JSMap.get String.eqb x (combine L (seq k (List.length L))) =
  if mem x L then Some (k + index_of x L) else None.
Proof.
  induction L as [| y L IH]; intros k x; cbn; [reflexivity |].
  unfold mem in *; cbn. destruct (String.eqb x y); cbn; [f_equal; lia |].
  rewrite IH. destruct (existsb (String.eqb x) L); [f_equal; lia | reflexivity].
Qed.

Lemma map_fst_combine_seq : forall (L : list string) k, map fst (combine L (seq k (List.length L))) = L.
Proof. induction L as [| y L IH]; intros k; cbn; [| rewrite IH]; reflexivity. Qed.

Lemma map_snd_combine_seq : forall (L : list string) k,
  map snd (combine L (seq k (List.length L))) = seq k (List.length L).
Proof. induction L as [| y L IH]; intros k; cbn; [| rewrite IH]; reflexivity. Qed.

Lemma first_layer_app : forall y E F,
  first_layer y (E ++ F) =
  match first_layer y E with Some l => Some l | None => first_layer y F end.
Proof.
  intros y E F; unfold first_layer; induction E as [| [x l] E IH]; cbn; [reflexivity |].
  destruct (String.eqb x y); [reflexivity | exact IH].
Qed.

Lemma first_layer_None : forall y E, first_layer y E = None <-> ~ In y (map fst E).
Proof.
  intros y E; unfold first_layer; induction E as [| [x l] E IH]; cbn; [tauto |].
  destruct (String.eqb_spec x y).
  - split; [discriminate | intros H; exfalso; apply H; left; exact e].
  - rewrite IH; intuition.
Qed.

Lemma first_layer_single : forall y name layer,
  first_layer y [(name, layer)] = JSMap.get String.eqb y [(name, layer)].
Proof.
  intros y name layer; unfold first_layer; cbn.
  rewrite String.eqb_sym; destruct (String.eqb y name); reflexivity.
Qed.

Lemma nf_mem : forall x (E : list (string * nat)),
  mem x (nodup_first [] (map fst E)) = mem x (map fst E).
Proof.
  intros x E; apply mem_ext; rewrite nf_In; cbn; tauto.
Qed.

Lemma index_of_notin_app : forall x l1 l2, ~ In x l1 ->
  index_of x (l1 ++ l2) = List.length l1 + index_of x l2.
Proof.
  induction l1 as [| y l1 IH]; intros l2 H; cbn; [reflexivity |].
  destruct (String.eqb_spec x y); [subst; exfalso; apply H; left; reflexivity |].
  rewrite IH; [reflexivity | intro H'; apply H; right; exact H'].
Qed.

Lemma addNode_inv : forall st E name layer i st',
  node_inv st E -> addNode name layer st = (i, st') ->
  node_inv st' (E ++ [(name, layer)]) /\
  i = ids_of (E ++ [(name, layer)]) name /\
  linkMap st' = linkMap st.
Proof.
  intros st E name layer i st' (Hn & Hi & Hlk & Hl) Hadd.
  unfold addNode, ids_of, node_inv in *.
  rewrite map_app in *; cbn [map fst] in *.
  rewrite nf_app1 in *; change ([] ++ map fst E) with (map fst E) in *.
  set (NF := nodup_first [] (map fst E)) in *.
  assert (HNF : forall x, mem x NF = mem x (map fst E)) by (intro; apply nf_mem).
  unfold JSMap.has in Hadd; rewrite Hn, get_combine_seq, HNF in Hadd.
  destruct (mem name (map fst E)) eqn:Em; cbn in Hadd.
  - injection Hadd as <- <-. rewrite app_nil_r.
    rewrite Hn, get_combine_seq, HNF, Em.
    split; [repeat split; auto |].
    + intros y; rewrite Hl, first_layer_app.
      destruct (first_layer y E) eqn:Ey; [reflexivity |].
      apply first_layer_None in Ey. unfold first_layer; cbn.
      destruct (String.eqb_spec name y); [subst; apply mem_In in Em; contradiction | reflexivity].
    + split; reflexivity.
  - injection Hadd as <- <-. cbn [nodeMap layerMap nodeIndex linkMap].
    assert (Hnone : JSMap.get String.eqb name (combine NF (seq 0 (List.length NF))) = None).
    { rewrite get_combine_seq, HNF, Em; reflexivity. }
    assert (Hlnone : JSMap.get String.eqb name (layerMap st) = None).
    { apply (JSMapFacts.get_None_iff String.eqb String.eqb_eq). rewrite Hlk.
      intro H; apply mem_In in H; rewrite HNF, Em in H; discriminate. }
    rewrite (JSMapFacts.set_absent String.eqb _ _ _ Hnone).
    rewrite (JSMapFacts.set_absent String.eqb _ _ _ Hlnone).
    rewrite Hi.
    assert (Hlen : List.length (NF ++ [name]) = S (List.length NF))
      by (rewrite length_app; cbn; lia).
    split; [repeat split |].
    + rewrite Hlen, seq_S, combine_app' by (rewrite length_seq; reflexivity).
      reflexivity.
    + rewrite Hlen; reflexivity.
    + rewrite map_app, Hlk; reflexivity.
    + intros y. rewrite (JSMapFacts.get_app String.eqb), Hl, first_layer_app.
      destruct (first_layer y E); [reflexivity |].
      symmetry; apply first_layer_single.
    + split; [| reflexivity].
      rewrite JSMapFacts.get_app, get_combine_seq, HNF, Em; cbn.
      rewrite index_of_notin_app; cbn; [rewrite String.eqb_refl; lia |].
      intro H; apply mem_In in H; rewrite HNF, Em in H; discriminate.
Qed.

(** ** The edge counters *)

Lemma count_pair_app : forall p l1 l2,
  count_pair p (l1 ++ l2) = count_pair p l1 + count_pair p l2.
Proof. intros p l1 l2; unfold count_pair; rewrite filter_app, length_app; reflexivity. Qed.

Lemma count_pair_single : forall a b x y,
  count_pair (a, b) [(x, y)] = if Nat.eqb x a && Nat.eqb y b then 1 else 0.
Proof. intros a b x y; unfold count_pair; cbn; destruct (Nat.eqb x a && Nat.eqb y b); reflexivity. Qed.

Lemma link_key_neq : forall a b a' b', (a', b') <> (a, b) -> link_key a' b' <> link_key a b.
Proof. intros a b a' b' H E; apply link_key_inj in E as [-> ->]; apply H; reflexivity. Qed.

Lemma bump_inv : forall st Ed a b,
  link_inv st Ed -> link_inv (bump (link_key a b) st) (Ed ++ [(a, b)]).
Proof.
  intros st Ed a b (Hk & Hnd & Hpos & Hget).
  unfold bump, link_inv; cbn [linkMap].
  split; [| split; [| split]].
  - intros k Hin. apply (JSMapFacts.keys_set String.eqb String.eqb_eq) in Hin as [Hin | ->];
      [apply Hk; exact Hin | eauto].
  - apply (JSMapFacts.set_NoDup String.eqb String.eqb_eq); exact Hnd.
  - apply (JSMapFacts.set_Forall String.eqb (fun v => 1 <= v)); [exact Hpos | lia].
  - intros a' b'. rewrite count_pair_app, count_pair_single.
    destruct (Nat.eqb_spec a a'), (Nat.eqb_spec b b'); cbn [andb]; subst.
    + rewrite (JSMapFacts.get_set_eq String.eqb String.eqb_eq), Hget.
      destruct (count_pair (a', b') Ed); reflexivity.
    + rewrite (JSMapFacts.get_set_neq String.eqb String.eqb_eq) by
        (apply link_key_neq; congruence).
      rewrite Nat.add_0_r; apply Hget.
    + rewrite (JSMapFacts.get_set_neq String.eqb String.eqb_eq) by
        (apply link_key_neq; congruence).
      rewrite Nat.add_0_r; apply Hget.
    + rewrite (JSMapFacts.get_set_neq String.eqb String.eqb_eq) by
        (apply link_key_neq; congruence).
      rewrite Nat.add_0_r; apply Hget.
Qed.

Lemma node_inv_bump : forall st k E, node_inv st E -> node_inv (bump k st) E.
Proof. intros st k E H; exact H. Qed.

Lemma link_inv_ext : forall st st' Ed,
  linkMap st' = linkMap st -> link_inv st Ed -> link_inv st' Ed.
Proof. intros st st' Ed E H; unfold link_inv in *; rewrite E; exact H. Qed.

Lemma ids_of_stable' : forall E F G x,
  G = E ++ F -> In x (map fst E) -> ids_of G x = ids_of E x.
Proof. intros E F G x -> H; apply ids_of_stable; exact H. Qed.

Lemma processConn_inv : forall st E Ed c,
  node_inv st E -> link_inv st Ed ->
  node_inv (processConn st c) (E ++ conn_names c) /\
  link_inv (processConn st c) (Ed ++ conn_edges (ids_of (E ++ conn_names c)) c).
Proof.
  intros st E Ed c HN HL.
  unfold processConn, conn_names, conn_edges.
  destruct (chains_of c) as [| x l] eqn:Hc; [rewrite !app_nil_r; split; assumption |].
  set (src := sourceIP_of c); set (rp := rulePayload_of c);
    set (lst := chainLast (x :: l)); set (fst' := chainFirst (x :: l)).
  destruct (addNode src 0 st) as [i1 st1] eqn:A1.
  destruct (addNode_inv _ _ _ _ _ _ HN A1) as (N1 & I1 & L1).
  destruct (addNode rp 1 st1) as [i2 st2] eqn:A2.
  destruct (addNode_inv _ _ _ _ _ _ N1 A2) as (N2 & I2 & L2).
  destruct (addNode lst 2 st2) as [i3 st3] eqn:A3.
  destruct (addNode_inv _ _ _ _ _ _ N2 A3) as (N3 & I3 & L3).
  destruct (addNode fst' 3 st3) as [i4 st4] eqn:A4.
  destruct (addNode_inv _ _ _ _ _ _ N3 A4) as (N4 & I4 & L4).
  set (E4 := (((E ++ [(src, 0)]) ++ [(rp, 1)]) ++ [(lst, 2)]) ++ [(fst', 3)]) in *.
  assert (HE : E ++ [(src, 0); (rp, 1); (lst, 2); (fst', 3)] = E4)
    by (subst E4; rewrite <- !app_assoc; reflexivity).
  rewrite HE.
  assert (J1 : i1 = ids_of E4 src).
  { rewrite I1; symmetry.
    apply (ids_of_stable' (E ++ [(src, 0)]) [(rp, 1); (lst, 2); (fst', 3)]);
      [subst E4; rewrite <- !app_assoc; reflexivity |].
    rewrite map_app, in_app_iff; right; left; reflexivity. }
  assert (J2 : i2 = ids_of E4 rp).
  { rewrite I2; symmetry.
    apply (ids_of_stable' ((E ++ [(src, 0)]) ++ [(rp, 1)]) [(lst, 2); (fst', 3)]);
      [subst E4; rewrite <- !app_assoc; reflexivity |].
    rewrite map_app, in_app_iff; right; left; reflexivity. }
  assert (J3 : i3 = ids_of E4 lst).
  { rewrite I3; symmetry.
    apply (ids_of_stable' (((E ++ [(src, 0)]) ++ [(rp, 1)]) ++ [(lst, 2)]) [(fst', 3)]);
      [reflexivity |].
    rewrite map_app, in_app_iff; right; left; reflexivity. }
  assert (J4 : i4 = ids_of E4 fst') by exact I4.
  rewrite <- J1, <- J2, <- J3, <- J4.
  split; [apply node_inv_bump, node_inv_bump, node_inv_bump; exact N4 |].
  replace (Ed ++ [(i1, i2); (i2, i3); (i3, i4)])
    with (((Ed ++ [(i1, i2)]) ++ [(i2, i3)]) ++ [(i3, i4)])
    by (rewrite <- !app_assoc; reflexivity).
  apply bump_inv, bump_inv, bump_inv.
  apply (link_inv_ext st); [congruence | exact HL].
Qed.

(** ** The whole pass and its output *)

Lemma conn_edges_ext : forall f g c,
  (forall x, In x (map fst (conn_names c)) -> f x = g x) ->
  conn_edges f c = conn_edges g c.
Proof.
  intros f g c H; unfold conn_edges, conn_names in *.
  destruct (chains_of c) as [| x l]; [reflexivity |].
  cbn in H. rewrite !H by tauto. reflexivity.
Qed.

Lemma all_edges_ext : forall f g P,
  (forall x, In x (map fst (encounters P)) -> f x = g x) ->
  all_edges f P = all_edges g P.
Proof.
  intros f g P; induction P as [| c P IH]; intros H; [reflexivity |].
  unfold all_edges, encounters in *; cbn [flat_map] in *.
  rewrite IH, (conn_edges_ext f g c); [reflexivity | |];
    intros x Hx; apply H; rewrite map_app, in_app_iff; tauto.
Qed.

Lemma encounters_app : forall P Q, encounters (P ++ Q) = encounters P ++ encounters Q.
Proof. intros P Q; unfold encounters; apply flat_map_app. Qed.

Lemma all_edges_app : forall f P Q, all_edges f (P ++ Q) = all_edges f P ++ all_edges f Q.
Proof. intros f P Q; unfold all_edges; apply flat_map_app. Qed.

Lemma aggregate_inv_gen : forall conns P st,
  node_inv st (encounters P) -> link_inv st (all_edges (ids_of (encounters P)) P) ->
  node_inv (fold_left processConn conns st) (encounters (P ++ conns)) /\
  link_inv (fold_left processConn conns st)
           (all_edges (ids_of (encounters (P ++ conns))) (P ++ conns)).
Proof.
  induction conns as [| c conns IH]; intros P st HN HL.
  - rewrite app_nil_r; split; assumption.
  - cbn [fold_left]. replace (P ++ c :: conns) with ((P ++ [c]) ++ conns)
      by (rewrite <- app_assoc; reflexivity).
    destruct (processConn_inv st (encounters P) _ c HN HL) as [HN' HL'].
    assert (HE : encounters (P ++ [c]) = encounters P ++ conn_names c).
    { rewrite encounters_app; unfold encounters at 2; cbn; rewrite app_nil_r; reflexivity. }
    apply IH; rewrite HE; [exact HN' |].
    rewrite all_edges_app; unfold all_edges at 2; cbn [flat_map]; rewrite app_nil_r.
    rewrite (all_edges_ext (ids_of (encounters P ++ conn_names c)) (ids_of (encounters P)) P);
      [exact HL' |].
    intros x Hx; apply ids_of_stable; exact Hx.
Qed.

Lemma aggregate_inv : forall conns,
  node_inv (aggregate conns) (encounters conns) /\
  link_inv (aggregate conns) (all_edges (ids_of (encounters conns)) conns).
Proof.
  intro conns; apply (aggregate_inv_gen conns []).
  - repeat split.
  - repeat split; [intros k [] | constructor | constructor].
Qed.

Lemma graph_id_combine : forall st L k x, mem x L = true ->
  match find (fun n => String.eqb (node_name n) x)
             (map (to_node st) (combine L (seq k (List.length L)))) with
  | Some n => node_id n
  | None => 0
  end = k + index_of x L.
Proof.
  intros st L; induction L as [| y L IH]; intros k x Hm; [discriminate |].
  cbn. rewrite (String.eqb_sym y x). unfold mem in Hm; cbn in Hm.
  destruct (String.eqb x y); [cbn [node_id]; lia |].
  rewrite IH by exact Hm; lia.
Qed.

Lemma graph_id_sankey : forall conns x, In x (map fst (encounters conns)) ->
  graph_id (sankeyData conns) x = ids_of (encounters conns) x.
Proof.
  intros conns x Hx. destruct (proj1 (aggregate_inv conns)) as (Hn & _).
  unfold graph_id, ids_of; rewrite sankeyData_eq; cbn [nodes]; rewrite Hn.
  apply graph_id_combine. rewrite nf_mem; apply mem_In; exact Hx.
Qed.

Lemma edge_lookup : forall m a b,
  (forall k, In k (map fst m) -> exists x y, k = link_key x y) ->
  match find (fun l => opt_nat_eqb (source l) (Some a) && opt_nat_eqb (target l) (Some b))
             (map to_link m) with
  | Some l => value l
  | None => 0
  end = match JSMap.get String.eqb (link_key a b) m with Some v => v | None => 0 end.
Proof.
  induction m as [| [k v] m IH]; intros a b Hk; [reflexivity |].
  destruct (Hk k (or_introl eq_refl)) as (x & y & ->).
  cbn [map find JSMap.get]. rewrite to_link_key; cbn [source target value opt_nat_eqb].
  destruct (Nat.eqb_spec x a), (Nat.eqb_spec y b); subst; cbn [andb].
  - rewrite String.eqb_refl; reflexivity.
  - rewrite (proj2 (String.eqb_neq _ _)) by (apply link_key_neq; congruence).
    apply IH; intros k' Hk'; apply Hk; right; exact Hk'.
  - rewrite (proj2 (String.eqb_neq _ _)) by (apply link_key_neq; congruence).
    apply IH; intros k' Hk'; apply Hk; right; exact Hk'.
  - rewrite (proj2 (String.eqb_neq _ _)) by (apply link_key_neq; congruence).
    apply IH; intros k' Hk'; apply Hk; right; exact Hk'.
Qed.

Lemma link_pairs_NoDup : forall m,
  (forall k, In k (map fst m) -> exists x y, k = link_key x y) ->
  NoDup (map fst m) -> NoDup (map link_pair (map to_link m)).
Proof.
  induction m as [| [k v] m IH]; intros Hk Hnd; cbn [map]; [constructor |].
  inversion Hnd as [| ? ? Hnin Hnd']; subst.
  destruct (Hk k (or_introl eq_refl)) as (x & y & ->).
  rewrite to_link_key; cbn [link_pair source target].
  constructor; [| apply IH; [intros k' Hk'; apply Hk; right; exact Hk' | exact Hnd']].
  intro Hin. apply in_map_iff in Hin as (l' & Hl' & Hin).
  apply in_map_iff in Hin as ([k' v'] & <- & Hin).
  destruct (Hk k' (or_intror (in_map fst _ _ Hin))) as (x' & y' & ->).
  rewrite to_link_key in Hl'; cbn in Hl'; injection Hl' as -> ->.
  apply Hnin; apply (in_map fst _ _ Hin).
Qed.

Lemma first_layer_Some : forall y E, In y (map fst E) -> exists l, first_layer y E = Some l.
Proof.
  intros y E H. destruct (first_layer y E) as [l |] eqn:Hf; [eauto |].
  apply first_layer_None in Hf; contradiction.
Qed.

Lemma count_pair_notin : forall p l, ~ In p l -> count_pair p l = 0.
Proof.
  intros [a b] l; induction l as [| [x y] l IH]; intros H; [reflexivity |].
  change ((x, y) :: l) with ([(x, y)] ++ l). rewrite count_pair_app, count_pair_single.
  destruct (Nat.eqb_spec x a), (Nat.eqb_spec y b); subst;
    [exfalso; apply H; left; reflexivity | | |];
    cbn [andb]; rewrite IH by (intro; apply H; right; assumption); reflexivity.
Qed.

Lemma count_pair_In : forall p l, In p l -> 1 <= count_pair p l.
Proof.
  intros [a b] l; induction l as [| [x y] l IH]; intros H; [destruct H |].
  change ((x, y) :: l) with ([(x, y)] ++ l). rewrite count_pair_app, count_pair_single.
  destruct H as [H | H].
  - injection H as -> ->; rewrite !Nat.eqb_refl; cbn; lia.
  - specialize (IH H); lia.
Qed.

Lemma all_edges_graph_id : forall conns,
  all_edges (graph_id (sankeyData conns)) conns = all_edges (ids_of (encounters conns)) conns.
Proof. intros conns; apply all_edges_ext, graph_id_sankey. Qed.

Lemma edge_weight_sankey : forall conns a b,
  edge_weight (sankeyData conns) a b = count_pair (a, b) (all_edges (graph_id (sankeyData conns)) conns).
Proof.
  intros conns a b. rewrite all_edges_graph_id.
  destruct (aggregate_inv conns) as [_ (Hk & _ & _ & Hg)].
  unfold edge_weight; rewrite sankeyData_eq; cbn [links].
  rewrite edge_lookup by exact Hk. rewrite Hg. destruct count_pair; reflexivity.
Qed.

Lemma links_sankey : forall conns,
  NoDup (map link_pair (links (sankeyData conns))) /\
  Forall (fun l => 1 <= value l) (links (sankeyData conns)).
Proof.
  intros conns. destruct (aggregate_inv conns) as [_ (Hk & Hnd & Hpos & _)].
  rewrite sankeyData_eq; cbn [links]. split; [apply link_pairs_NoDup; assumption |].
  apply Forall_map. revert Hk Hpos; generalize (linkMap (aggregate conns)).
  intros m Hk Hpos; induction Hpos as [| [k v] m Hv Hpos IH]; constructor.
  - destruct (Hk k (or_introl eq_refl)) as (x & y & ->); rewrite to_link_key; exact Hv.
  - apply IH; intros k' Hk'; apply Hk; right; exact Hk'.
Qed.

Lemma graph_id_append : forall conns extra x, In x (map fst (encounters conns)) ->
  graph_id (sankeyData (conns ++ extra)) x = graph_id (sankeyData conns) x.
Proof.
  intros conns extra x Hx.
  rewrite graph_id_sankey by (rewrite encounters_app, map_app, in_app_iff; left; exact Hx).
  rewrite graph_id_sankey by exact Hx. rewrite encounters_app. apply ids_of_stable; exact Hx.
Qed.

Lemma map_node_name : forall st L, map node_name (map (to_node st) L) = map fst L.
Proof. intros st L; induction L as [| [x i] L IH]; cbn; congruence. Qed.

Lemma map_node_id : forall st L, map node_id (map (to_node st) L) = map snd L.
Proof. intros st L; induction L as [| [x i] L IH]; cbn; congruence. Qed.

Lemma count_single_hop : forall g i conns,
  List.length (filter (single_hop_on g i) conns) <= count_pair (i, i) (all_edges (graph_id g) conns).
Proof.
  intros g i conns; induction conns as [| c conns IH]; [cbn; lia |].
  unfold all_edges in *; cbn [flat_map filter]. rewrite count_pair_app.
  destruct (single_hop_on g i c) eqn:Hs; cbn [List.length]; [| lia].
  unfold single_hop_on in Hs. destruct (chains_of c) as [| x [| y l]] eqn:Hc; try discriminate.
  apply Nat.eqb_eq in Hs.
  assert (1 <= count_pair (i, i) (conn_edges (graph_id g) c)); [| lia].
  apply count_pair_In. unfold conn_edges; rewrite Hc; cbn [chainLast chainFirst last hd].
  rewrite Hs; right; right; left; reflexivity.
Qed.

(** ** Node identity (C5) *)

(** C5: the output nodes are the distinct names of the input in order of
    first encounter (one node per name, no duplicates), their ids are
    0, 1, 2, ... in that order, a name's id is its position in that order,
    and each node is coloured by the layer of the first occurrence of its
    name; e.g. a name first seen as a rule label (layer 1) and later as a
    chain element keeps its id and layer 1. *)
Theorem sankey_nodes_first_seen :
  (forall conns : list Connection,
     let g := sankeyData conns in
     let NF := nodup_first [] (map fst (encounters conns)) in
     map node_name (nodes g) = NF /\
     NoDup (map node_name (nodes g)) /\
     (forall x, In x (map node_name (nodes g)) <-> In x (map fst (encounters conns))) /\
     map node_id (nodes g) = seq 0 (List.length NF) /\
     (forall x, In x (map fst (encounters conns)) -> graph_id g x = index_of x NF) /\
     (forall nd, In nd (nodes g) ->
        exists l, first_layer (node_name nd) (encounters conns) = Some l /\
                  node_color nd = nth l layerColors "")) /\
  map (fun n => (node_id n, node_name n, node_color n))
      (nodes (sankeyData [mkConn "10.0.0.1" "Match" "" (Some ["HK-01"; "Proxy"]);
                          mkConn "10.0.0.2" "DOMAIN" "example.com" (Some ["Match"])])) =
    [(0, "10.0.0.1", "#5470c6"); (1, "Match", "#91cc75"); (2, "Proxy", "#fac858");
     (3, "HK-01", "#ee6666"); (4, "10.0.0.2", "#5470c6");
     (5, "DOMAIN: example.com", "#91cc75")].
Proof.
  split; [| vm_compute; reflexivity].
  intros conns g NF.
  destruct (proj1 (aggregate_inv conns)) as (Hn & _ & _ & Hl).
  assert (Hg : nodes g = map (to_node (aggregate conns)) (combine NF (seq 0 (List.length NF))))
    by (subst g; rewrite sankeyData_eq; cbn [nodes]; rewrite Hn; reflexivity).
  assert (Hnames : map node_name (nodes g) = NF)
    by (rewrite Hg, map_node_name, map_fst_combine_seq; reflexivity).
  split; [exact Hnames |]. split; [rewrite Hnames; apply nf_NoDup |].
  split; [intros x; rewrite Hnames; subst NF; rewrite nf_In; cbn; tauto |].
  split; [rewrite Hg, map_node_id, map_snd_combine_seq; reflexivity |].
  split; [intros x Hx; subst g; rewrite graph_id_sankey by exact Hx; reflexivity |].
  intros nd Hnd. rewrite Hg in Hnd. apply in_map_iff in Hnd as ([x i] & <- & Hin).
  apply in_combine_l in Hin. subst NF; apply nf_In in Hin as [Hin _].
  destruct (first_layer_Some x _ Hin) as [l Hf].
  exists l; cbn [to_node node_name node_color]. rewrite Hl, Hf. split; reflexivity.
Qed.

Lemma sankey_nodes_first_seen_witness :
  In "Match" (map fst (encounters [mkConn "10.0.0.1" "Match" "" (Some ["Proxy"])])) /\
  graph_id (sankeyData [mkConn "10.0.0.1" "Match" "" (Some ["Proxy"])]) "Match" =
    index_of "Match"
      (nodup_first [] (map fst (encounters [mkConn "10.0.0.1" "Match" "" (Some ["Proxy"])]))).
Proof.
  split; [apply mem_In; vm_compute; reflexivity |].
  apply (proj1 (proj2 (proj2 (proj2 (proj2
           (proj1 sankey_nodes_first_seen [mkConn "10.0.0.1" "Match" "" (Some ["Proxy"])])))))).
  apply mem_In; vm_compute; reflexivity.
Defined.

(** ** Edge weights (C4) *)

(** C4, counterexample: two identical records produce the same
    source-to-rule pair, but that pair's weight is 4, not 2, because each
    record also produces it as its chain-last-to-chain-first edge. *)
Lemma sankey_weight_counts_repeats :
  let c := mkConn "A" "B" "" (Some ["B"; "A"]) in
  let g := sankeyData [c; c] in
  graph_id g (sourceIP_of c) = 0 /\ graph_id g (rulePayload_of c) = 1 /\
  edge_weight g 0 1 = 4.
Proof. vm_compute; repeat split. Qed.

(** C4, amended: the weight of the edge between two ids is the number of
    occurrences of that pair among the edges of all processed records
    (three per record, repeats included); the output has at most one edge
    per ordered pair, every weight is at least 1, and appending records
    none of whose edges is the pair leaves its weight unchanged.  For two
    records sharing their source-to-rule pair and nothing else, that
    weight is 2 and stays 2 after a third record with other edges. *)
Theorem sankey_edge_weights :
  (forall conns : list Connection,
     let g := sankeyData conns in
     (forall a b, edge_weight g a b = count_pair (a, b) (all_edges (graph_id g) conns)) /\
     NoDup (map link_pair (links g)) /\
     Forall (fun l => 1 <= value l) (links g) /\
     (forall extra a b,
        ~ In (a, b) (all_edges (graph_id (sankeyData (conns ++ extra))) extra) ->
        edge_weight (sankeyData (conns ++ extra)) a b = edge_weight g a b)) /\
  let c1 := mkConn "10.0.0.1" "Match" "" (Some ["HK-01"; "Proxy"]) in
  let c3 := mkConn "10.0.0.2" "Match" "" (Some ["HK-01"; "Proxy"]) in
  graph_id (sankeyData [c1; c1]) "10.0.0.1" = 0 /\
  graph_id (sankeyData [c1; c1]) "Match" = 1 /\
  edge_weight (sankeyData [c1; c1]) 0 1 = 2 /\
  edge_weight (sankeyData [c1; c1; c3]) 0 1 = 2.
Proof.
  split; [| vm_compute; repeat split].
  intros conns g. split; [intros a b; apply edge_weight_sankey |].
  split; [apply links_sankey |]. split; [apply links_sankey |].
  intros extra a b Hn. subst g. rewrite !edge_weight_sankey.
  rewrite all_edges_app, count_pair_app, (count_pair_notin _ _ Hn), Nat.add_0_r.
  f_equal. apply all_edges_ext; intros x Hx; apply graph_id_append; exact Hx.
Qed.

Lemma sankey_edge_weights_witness :
  ~ In (0, 1) (all_edges (graph_id (sankeyData ([mkConn "A" "B" "" (Some ["C"])] ++
                                                 [mkConn "D" "E" "" (Some ["F"])])))
                         [mkConn "D" "E" "" (Some ["F"])]) /\
  edge_weight (sankeyData ([mkConn "A" "B" "" (Some ["C"])] ++ [mkConn "D" "E" "" (Some ["F"])])) 0 1 =
  edge_weight (sankeyData [mkConn "A" "B" "" (Some ["C"])]) 0 1.
Proof.
  assert (Hn : ~ In (0, 1) (all_edges (graph_id (sankeyData ([mkConn "A" "B" "" (Some ["C"])] ++
                                                 [mkConn "D" "E" "" (Some ["F"])])))
                         [mkConn "D" "E" "" (Some ["F"])])).
  { vm_compute. intros H; repeat (destruct H as [H | H]; [discriminate H |]); exact H. }
  split; [exact Hn |].
  exact (proj2 (proj2 (proj2 (proj1 sankey_edge_weights [mkConn "A" "B" "" (Some ["C"])])))
           [mkConn "D" "E" "" (Some ["F"])] 0 1 Hn).
Defined.

(** ** One-element chains (C10) *)

(** C10, counterexample: one record whose single chain element has the
    same name as its rule label yields a self-loop of weight 2, while
    only one record has a one-element chain on that node. *)
Lemma single_hop_loop_weight_2 :
  let c := mkConn "10.0.0.1" "Match" "" (Some ["Match"]) in
  let g := sankeyData [c] in
  graph_id g "Match" = 1 /\
  List.length (filter (single_hop_on g 1) [c]) = 1 /\
  edge_weight g 1 1 = 2.
Proof. vm_compute; repeat split. Qed.

(** C10, amended: for a record whose chain has one element [x], the third
    edge it contributes is the self-loop [(i, i)] with [i] the id of [x];
    the weight of that self-loop is the number of occurrences of [(i, i)]
    among all edges, hence at least the number of records with a
    one-element chain on the node [i]. *)
Theorem single_hop_self_loop : forall conns c x,
  In c conns -> chains_of c = [x] ->
  let g := sankeyData conns in
  let i := graph_id g x in
  nth 2 (conn_edges (graph_id g) c) (0, 0) = (i, i) /\
  edge_weight g i i = count_pair (i, i) (all_edges (graph_id g) conns) /\
  1 <= List.length (filter (single_hop_on g i) conns) <= edge_weight g i i.
Proof.
  intros conns c x Hin Hc g i.
  assert (Hs : single_hop_on g i c = true)
    by (unfold single_hop_on; rewrite Hc; apply Nat.eqb_refl).
  split; [unfold conn_edges; rewrite Hc; reflexivity |].
  split; [apply edge_weight_sankey |].
  split.
  - destruct (filter (single_hop_on g i) conns) eqn:Hf; cbn [List.length]; [| lia].
    assert (Hc' : In c (filter (single_hop_on g i) conns)) by (apply filter_In; auto).
    rewrite Hf in Hc'; destruct Hc'.
  - subst g; rewrite edge_weight_sankey; apply count_single_hop.
Qed.

Lemma single_hop_self_loop_witness :
  In (mkConn "10.0.0.1" "Match" "" (Some ["DIRECT"])) [mkConn "10.0.0.1" "Match" "" (Some ["DIRECT"])] /\
  chains_of (mkConn "10.0.0.1" "Match" "" (Some ["DIRECT"])) = ["DIRECT"] /\
  edge_weight (sankeyData [mkConn "10.0.0.1" "Match" "" (Some ["DIRECT"])]) 2 2 =
  count_pair (2, 2) (all_edges (graph_id (sankeyData [mkConn "10.0.0.1" "Match" "" (Some ["DIRECT"])]))
                               [mkConn "10.0.0.1" "Match" "" (Some ["DIRECT"])]).
Proof.
  split; [left; reflexivity |]. split; [reflexivity |].
  exact (proj1 (proj2 (single_hop_self_loop [mkConn "10.0.0.1" "Match" "" (Some ["DIRECT"])]
                          (mkConn "10.0.0.1" "Match" "" (Some ["DIRECT"])) "DIRECT"
                          (or_introl eq_refl) eq_refl))).
Defined.

(** ** Witnesses of the menu and visibility statements *)

Lemma menu_swipe_wraps_witness :
  3 < List.length (menuItems false) /\
  getNextMenuKey (menuItems false) (nth 3 (menuItems false) general) =
    nth ((3 + 1) mod List.length (menuItems false)) (menuItems false) general.
Proof.
  assert (H : 3 < List.length (menuItems false)) by (cbv; lia).
  split; [exact H |].
  exact (proj1 (proj2 (proj2 (menu_swipe_wraps false)) 3 H)).
Defined.

Lemma selectMostVisible_spec_witness :
  Forall (fun p => snd p < 3 # 10)%Q [(general, 1 # 5)%Q] /\
  selectMostVisible [(general, 1 # 5)%Q] = None.
Proof.
  assert (H : Forall (fun p => snd p < 3 # 10)%Q [(general, 1 # 5)%Q])
    by (repeat constructor; vm_compute; reflexivity).
  split; [exact H |].
  exact (proj2 (proj1 (proj2 selectMostVisible_spec) [(general, 1 # 5)%Q]) H).
Defined.

(** ** Further properties of the topology view *)

Lemma nodes_sankey : forall conns,
  nodes (sankeyData conns) =
  map (to_node (aggregate conns))
      (combine (nodup_first [] (map fst (encounters conns)))
               (seq 0 (List.length (nodup_first [] (map fst (encounters conns)))))).
Proof.
  intros conns. destruct (proj1 (aggregate_inv conns)) as (Hn & _).
  rewrite sankeyData_eq; cbn [nodes]; rewrite Hn; reflexivity.
Qed.

Lemma index_of_lt : forall x l, In x l -> index_of x l < List.length l.
Proof.
  intros x l; induction l as [| y l IH]; intros H; [destruct H |]; cbn.
  destruct (String.eqb_spec x y); [lia |].
  destruct H as [-> | H]; [congruence |]. specialize (IH H); lia.
Qed.

Lemma node_with_id : forall conns a,
  a < List.length (nodup_first [] (map fst (encounters conns))) ->
  exists n, find_node (nodes (sankeyData conns)) (Some a) = Some n /\
            In n (nodes (sankeyData conns)) /\ node_id n = a.
Proof.
  intros conns a Ha.
  assert (Hids : In a (map node_id (nodes (sankeyData conns)))).
  { rewrite nodes_sankey, map_node_id, map_snd_combine_seq. apply in_seq; lia. }
  apply in_map_iff in Hids as (n0 & Hn0 & Hin0).
  unfold find_node. destruct (find _ _) as [n |] eqn:Hf.
  - apply find_some in Hf as [Hin Hp]. cbn [opt_nat_eqb] in Hp.
    apply Nat.eqb_eq in Hp. exists n; auto.
  - apply (find_none _ _ Hf) in Hin0. cbn [opt_nat_eqb] in Hin0.
    rewrite Hn0, Nat.eqb_refl in Hin0; discriminate.
Qed.

Lemma get_NoDup_In : forall (m : list (string * nat)) k v,
  NoDup (map fst m) -> In (k, v) m -> JSMap.get String.eqb k m = Some v.
Proof.
  induction m as [| [k' v'] m IH]; intros k v Hnd Hin; [destruct Hin |].
  inversion Hnd as [| ? ? Hnin Hnd']; subst. cbn [JSMap.get].
  destruct Hin as [Heq | Hin].
  - injection Heq as -> ->; rewrite String.eqb_refl; reflexivity.
  - destruct (String.eqb_spec k k') as [-> | _]; [| apply IH; assumption].
    exfalso; apply Hnin; apply (in_map fst _ _ Hin).
Qed.

Lemma count_pair_pos : forall p l, count_pair p l <> 0 -> In p l.
Proof.
  intros [a b] l; induction l as [| [x y] l IH]; intros H; [contradiction |].
  change ((x, y) :: l) with ([(x, y)] ++ l) in H. rewrite count_pair_app, count_pair_single in H.
  destruct (Nat.eqb_spec x a), (Nat.eqb_spec y b); subst; [left; reflexivity | | |];
    right; apply IH; exact H.
Qed.

Lemma name_in_encounters : forall conns c x l,
  In c conns -> In (x, l) (conn_names c) -> In x (map fst (encounters conns)).
Proof.
  intros conns c x l Hc Hx. apply (in_map fst (encounters conns) (x, l)).
  unfold encounters; apply in_flat_map; eauto.
Qed.

Lemma all_edges_names : forall f conns a b,
  In (a, b) (all_edges f conns) ->
  exists x y, In x (map fst (encounters conns)) /\ In y (map fst (encounters conns)) /\
              a = f x /\ b = f y.
Proof.
  intros f conns a b H. unfold all_edges in H; apply in_flat_map in H as (c & Hc & Hab).
  pose proof (name_in_encounters conns c) as Hn.
  unfold conn_edges in Hab; unfold conn_names in Hn.
  destruct (chains_of c) as [| z l]; [destruct Hab |].
  assert (H0 : In (sourceIP_of c) (map fst (encounters conns)))
    by (apply (Hn _ 0 Hc); left; reflexivity).
  assert (H1 : In (rulePayload_of c) (map fst (encounters conns)))
    by (apply (Hn _ 1 Hc); right; left; reflexivity).
  assert (H2 : In (chainLast (z :: l)) (map fst (encounters conns)))
    by (apply (Hn _ 2 Hc); right; right; left; reflexivity).
  assert (H3 : In (chainFirst (z :: l)) (map fst (encounters conns)))
    by (apply (Hn _ 3 Hc); right; right; right; left; reflexivity).
  destruct Hab as [Hab | [Hab | [Hab | []]]]; injection Hab as <- <-; eauto 7.
Qed.

Lemma map_fst_encounters_In : forall conns x,
  In x (nodup_first [] (map fst (encounters conns))) <-> In x (map fst (encounters conns)).
Proof. intros conns x; rewrite nf_In; cbn; tauto. Qed.

Lemma scan_known : forall conns x,
  In x (map fst (encounters conns)) -> scan_node_type x conns <> unknown.
Proof.
  induction conns as [| c conns IH]; intros x H; [destruct H |].
  unfold encounters in H; cbn [flat_map] in H; rewrite map_app, in_app_iff in H.
  cbn [scan_node_type]. unfold conn_names in H.
  destruct (chains_of c) as [| z l].
  - destruct H as [[] | H]; apply IH; exact H.
  - destruct (String.eqb_spec x (sourceIP_of c)); [discriminate |].
    destruct (String.eqb_spec x (rulePayload_of c)); [discriminate |].
    destruct (String.eqb_spec x (chainLast (z :: l))); [discriminate |].
    destruct (String.eqb_spec x (chainFirst (z :: l))); [discriminate |].
    apply IH. destruct H as [H | H]; [| exact H].
    cbn [map fst List.In] in H; intuition congruence.
Qed.

Lemma encounters_layer_bound : forall conns x l, In (x, l) (encounters conns) -> l <= 3.
Proof.
  intros conns x l H. unfold encounters in H; apply in_flat_map in H as (c & _ & H).
  unfold conn_names in H; destruct (chains_of c); [destruct H |].
  cbn [List.In] in H.
  destruct H as [H | [H | [H | [H | []]]]]; injection H as _ <-; lia.
Qed.

Lemma first_layer_In : forall x E l, first_layer x E = Some l -> In (x, l) E.
Proof.
  intros x E l H. unfold first_layer in H.
  destruct (find _ E) as [[y l'] |] eqn:Hf; [| discriminate].
  injection H as <-. apply find_some in Hf as [Hin Hy]. cbn in Hy.
  apply String.eqb_eq in Hy; subst; exact Hin.
Qed.

Lemma nf_nil : forall l, nodup_first [] l = [] -> l = [].
Proof. intros [| x l]; [reflexivity | cbn; discriminate]. Qed.

Lemma sum_set_bump : forall (m : list (string * nat)) k,
  fold_right (fun p acc => snd p + acc) 0
    (JSMap.set String.eqb k
       (match JSMap.get String.eqb k m with Some v => v | None => 0 end + 1) m) =
  fold_right (fun p acc => snd p + acc) 0 m + 1.
Proof.
  induction m as [| [k' v'] m IH]; intros k; [reflexivity |].
  cbn [JSMap.get JSMap.set]. destruct (String.eqb k k'); cbn [fold_right snd]; [lia |].
  rewrite IH; lia.
Qed.

Lemma addNode_linkMap : forall n l st, linkMap (snd (addNode n l st)) = linkMap st.
Proof. intros n l st; unfold addNode; destruct (negb _); reflexivity. Qed.

Lemma bump_sum : forall k st,
  fold_right (fun p acc => snd p + acc) 0 (linkMap (bump k st)) =
  fold_right (fun p acc => snd p + acc) 0 (linkMap st) + 1.
Proof. intros k st; unfold bump; cbn [linkMap]; apply sum_set_bump. Qed.

Lemma processConn_sum : forall st c,
  fold_right (fun p acc => snd p + acc) 0 (linkMap (processConn st c)) =
  fold_right (fun p acc => snd p + acc) 0 (linkMap st) +
  match chains_of c with [] => 0 | _ => 3 end.
Proof.
  intros st c. unfold processConn; cbv zeta.
  destruct (chains_of c) as [| z l]; [lia |].
  destruct (addNode (sourceIP_of c) 0 st) as [i1 s1] eqn:E1.
  destruct (addNode (rulePayload_of c) 1 s1) as [i2 s2] eqn:E2.
  destruct (addNode (chainLast (z :: l)) 2 s2) as [i3 s3] eqn:E3.
  destruct (addNode (chainFirst (z :: l)) 3 s3) as [i4 s4] eqn:E4.
  rewrite !bump_sum.
  assert (H1 : linkMap s1 = linkMap st)
    by (change s1 with (snd (i1, s1)); rewrite <- E1; apply addNode_linkMap).
  assert (H2 : linkMap s2 = linkMap s1)
    by (change s2 with (snd (i2, s2)); rewrite <- E2; apply addNode_linkMap).
  assert (H3 : linkMap s3 = linkMap s2)
    by (change s3 with (snd (i3, s3)); rewrite <- E3; apply addNode_linkMap).
  assert (H4 : linkMap s4 = linkMap s3)
    by (change s4 with (snd (i4, s4)); rewrite <- E4; apply addNode_linkMap).
  rewrite H4, H3, H2, H1; lia.
Qed.

Lemma fold_sum : forall conns st,
  fold_right (fun p acc => snd p + acc) 0 (linkMap (fold_left processConn conns st)) =
  fold_right (fun p acc => snd p + acc) 0 (linkMap st) + 3 * chained_count conns.
Proof.
  unfold chained_count.
  induction conns as [| c conns IH]; intros st; cbn [fold_left filter]; [cbn; lia |].
  rewrite IH, processConn_sum. destruct (chains_of c); cbn [List.length]; lia.
Qed.

Lemma sum_to_link : forall m,
  fold_right (fun l acc => value l + acc) 0 (map to_link m) =
  fold_right (fun p acc => snd p + acc) 0 m.
Proof.
  induction m as [| [k v] m IH]; [reflexivity |].
  cbn [map fold_right]; rewrite IH; reflexivity.
Qed.

Lemma label_formatter_long : forall {A : Type} (dot : A) (name : list A),
  15 < List.length name -> label_formatter dot name = firstn 15 name ++ [dot; dot; dot].
Proof.
  intros A dot name H; unfold label_formatter.
  destruct (Nat.ltb_spec 15 (List.length name)); [reflexivity | lia].
Qed.

Lemma label_formatter_short : forall {A : Type} (dot : A) (name : list A),
  List.length name <= 15 -> label_formatter dot name = name.
Proof.
  intros A dot name H; unfold label_formatter.
  destruct (Nat.ltb_spec 15 (List.length name)); [lia | reflexivity].
Qed.

(** The series label formatter: a label is never longer than 18 code units
    and always starts with the first 15 units of the name; formatting a
    label again changes nothing; names of at most 15 units are shown
    whole, while two longer names that share their first 15 units get the
    same label. *)
Theorem label_formatter_truncates : forall {A : Type} (dot : A) (name : list A),
  List.length (label_formatter dot name) <= 18 /\
  firstn 15 (label_formatter dot name) = firstn 15 name /\
  label_formatter dot (label_formatter dot name) = label_formatter dot name /\
  (List.length name <= 15 -> label_formatter dot name = name) /\
  (forall name', 15 < List.length name -> 15 < List.length name' ->
     firstn 15 name = firstn 15 name' -> label_formatter dot name = label_formatter dot name').
Proof.
  intros A dot name.
  destruct (Nat.le_gt_cases (List.length name) 15) as [Hle | Hlt].
  - rewrite !(label_formatter_short dot name) by exact Hle.
    split; [lia | split; [reflexivity | split; [reflexivity | split; [reflexivity |]]]].
    intros name' H; lia.
  - assert (H15 : List.length (firstn 15 name) = 15) by (rewrite length_firstn; lia).
    rewrite (label_formatter_long dot name) by exact Hlt.
    assert (Hf : firstn 15 (firstn 15 name ++ [dot; dot; dot]) = firstn 15 name)
      by (rewrite firstn_app, H15, Nat.sub_diag, app_nil_r, firstn_firstn; reflexivity).
    split; [rewrite length_app, H15; cbn; lia |]. split; [exact Hf |].
    split; [rewrite label_formatter_long by (rewrite length_app, H15; cbn; lia); rewrite Hf; reflexivity |].
    split; [intros; lia |].
    intros name' _ Hlt' Heq. rewrite (label_formatter_long dot name') by exact Hlt'.
    rewrite Heq; reflexivity.
Qed.

Lemma label_formatter_truncates_witness :
  15 < List.length (list_ascii_of_string "proxy-group-hk-01") /\
  15 < List.length (list_ascii_of_string "proxy-group-hk-02") /\
  label_formatter "."%char (list_ascii_of_string "proxy-group-hk-01") =
  label_formatter "."%char (list_ascii_of_string "proxy-group-hk-02") /\
  label_formatter "."%char (list_ascii_of_string "proxy-group-hk-01") =
  list_ascii_of_string "proxy-group-hk-...".
Proof.
  assert (H1 : 15 < List.length (list_ascii_of_string "proxy-group-hk-01")) by (cbn; lia).
  assert (H2 : 15 < List.length (list_ascii_of_string "proxy-group-hk-02")) by (cbn; lia).
  split; [exact H1 | split; [exact H2 | split]].
  - exact (proj2 (proj2 (proj2 (proj2 (label_formatter_truncates "."%char
             (list_ascii_of_string "proxy-group-hk-01")))))
             (list_ascii_of_string "proxy-group-hk-02") H1 H2 eq_refl).
  - reflexivity.
Defined.

(** The key [`${source}-${target}`] of [linkMap] splits and parses back
    to the two node ids ([Number] never gives [NaN] on it). *)
Theorem link_key_decodes : forall a b,
  map Number (split "-"%char (link_key a b)) = [Some a; Some b].
Proof.
  intros a b; unfold link_key; cbn [String.append].
  rewrite split_app_sep by apply string_of_nat_sep_free.
  rewrite (split_sep_free _ (string_of_nat b)) by apply string_of_nat_sep_free.
  cbn [map]; rewrite !Number_string_of_nat; reflexivity.
Qed.

(** Every output link joins two output nodes: its [source] and [target] are
    ids of nodes of the graph (never [NaN]), so the edge tooltip always
    shows "source name → target name" with the link's count. *)
Theorem edge_tooltip_names_endpoints : forall (t : string -> string) conns l,
  In l (links (sankeyData conns)) ->
  exists sn tn,
    In sn (nodes (sankeyData conns)) /\ In tn (nodes (sankeyData conns)) /\
    source l = Some (node_id sn) /\ target l = Some (node_id tn) /\
    tooltip_formatter t conns "edge" (tip_of_link l) =
      (node_name sn ++ " → " ++ node_name tn ++ "<br/>" ++
        t "connectionCount" ++ ": " ++ string_of_nat (value l))%string.
Proof.
  intros t conns l Hl.
  destruct (aggregate_inv conns) as [_ (Hk & Hnd & _ & Hg)].
  pose proof Hl as Hl'. rewrite sankeyData_eq in Hl'; cbn [links] in Hl'.
  apply in_map_iff in Hl' as ([k v] & Hkv & Hin).
  destruct (Hk k (in_map fst _ _ Hin)) as (a & b & ->).
  rewrite to_link_key in Hkv; subst l.
  pose proof (get_NoDup_In _ _ _ Hnd Hin) as Hget. rewrite Hg in Hget.
  assert (Hab : In (a, b) (all_edges (ids_of (encounters conns)) conns))
    by (apply count_pair_pos; destruct (count_pair (a, b) _); [discriminate | lia]).
  apply all_edges_names in Hab as (x & y & Hx & Hy & -> & ->).
  assert (Hlt : forall z, In z (map fst (encounters conns)) ->
            ids_of (encounters conns) z < List.length (nodup_first [] (map fst (encounters conns)))).
  { intros z Hz; unfold ids_of; apply index_of_lt, map_fst_encounters_In; exact Hz. }
  destruct (node_with_id conns _ (Hlt x Hx)) as (sn & Hfs & Hsn & Hids).
  destruct (node_with_id conns _ (Hlt y Hy)) as (tn & Hft & Htn & Hidt).
  exists sn, tn. cbn [source target value].
  split; [exact Hsn |]. split; [exact Htn |].
  split; [rewrite Hids; reflexivity |]. split; [rewrite Hidt; reflexivity |].
  unfold tooltip_formatter.
  change (String.eqb "edge" "node") with false; change (String.eqb "edge" "edge") with true.
  cbv beta iota zeta. cbn [tip_of_link tip_source tip_target tip_value source target value].
  rewrite Hfs, Hft; reflexivity.
Qed.

Lemma edge_tooltip_names_endpoints_witness :
  In (mkSLink (Some 0) (Some 1) 1)
     (links (sankeyData [mkConn "10.0.0.1" "Match" "" (Some ["Proxy"])])) /\
  exists sn tn,
    In sn (nodes (sankeyData [mkConn "10.0.0.1" "Match" "" (Some ["Proxy"])])) /\
    In tn (nodes (sankeyData [mkConn "10.0.0.1" "Match" "" (Some ["Proxy"])])) /\
    source (mkSLink (Some 0) (Some 1) 1) = Some (node_id sn) /\
    target (mkSLink (Some 0) (Some 1) 1) = Some (node_id tn) /\
    tooltip_formatter (fun s => s) [mkConn "10.0.0.1" "Match" "" (Some ["Proxy"])] "edge"
      (tip_of_link (mkSLink (Some 0) (Some 1) 1)) =
      (node_name sn ++ " → " ++ node_name tn ++ "<br/>" ++
        "connectionCount" ++ ": " ++ string_of_nat (value (mkSLink (Some 0) (Some 1) 1)))%string.
Proof.
  assert (H : In (mkSLink (Some 0) (Some 1) 1)
                 (links (sankeyData [mkConn "10.0.0.1" "Match" "" (Some ["Proxy"])])))
    by (vm_compute; left; reflexivity).
  split; [exact H |].
  exact (edge_tooltip_names_endpoints (fun s => s) _ _ H).
Defined.

(** Every node of the graph gets a known node type in its tooltip: its
    name was registered from a processed record, so [getNodeTypeName] never
    answers [unknown] for it. *)
Theorem node_tooltip_known_type : forall (t : string -> string) conns nd data,
  In nd (nodes (sankeyData conns)) -> tip_name data = node_name nd ->
  exists ty, ty <> unknown /\ getNodeTypeName conns (node_name nd) = ty /\
    tooltip_formatter t conns "node" data =
      (node_name nd ++ "<br/>" ++ t "nodeType" ++ ": " ++ t (nodeTypeKey ty))%string.
Proof.
  intros t conns nd data Hnd Hname.
  assert (Hx : In (node_name nd) (map fst (encounters conns))).
  { apply map_fst_encounters_In. rewrite nodes_sankey in Hnd.
    rewrite <- (map_fst_combine_seq _ 0), <- (map_node_name (aggregate conns)).
    apply in_map; exact Hnd. }
  exists (getNodeTypeName conns (node_name nd)). split; [| split; [reflexivity |]].
  - destruct conns as [| c conns]; [destruct Hx |]. apply scan_known; exact Hx.
  - unfold tooltip_formatter. change (String.eqb "node" "node") with true.
    cbv beta iota. rewrite Hname; reflexivity.
Qed.

Lemma node_tooltip_known_type_witness :
  In (mkSNode 1 "Match" "#91cc75")
     (nodes (sankeyData [mkConn "10.0.0.1" "Match" "" (Some ["Proxy"])])) /\
  tip_name (mkTip "Match" None None 0) = node_name (mkSNode 1 "Match" "#91cc75") /\
  exists ty, ty <> unknown /\
    getNodeTypeName [mkConn "10.0.0.1" "Match" "" (Some ["Proxy"])]
      (node_name (mkSNode 1 "Match" "#91cc75")) = ty /\
    tooltip_formatter (fun s => s) [mkConn "10.0.0.1" "Match" "" (Some ["Proxy"])] "node"
      (mkTip "Match" None None 0) =
      (node_name (mkSNode 1 "Match" "#91cc75") ++ "<br/>" ++ "nodeType" ++ ": " ++
        nodeTypeKey ty)%string.
Proof.
  assert (H1 : In (mkSNode 1 "Match" "#91cc75")
                  (nodes (sankeyData [mkConn "10.0.0.1" "Match" "" (Some ["Proxy"])])))
    by (vm_compute; right; left; reflexivity).
  assert (H2 : tip_name (mkTip "Match" None None 0) = node_name (mkSNode 1 "Match" "#91cc75"))
    by reflexivity.
  split; [exact H1 |]. split; [exact H2 |].
  exact (node_tooltip_known_type (fun s => s) _ _ _ H1 H2).
Defined.

(** [updateChartData] clears the chart (and the template shows "no data")
    exactly when no record has a non-empty chain; otherwise it sets the
    series to the computed nodes and links. *)
Theorem updateChartData_clears_iff_chainless : forall conns,
  (updateChartData (sankeyData conns) = ClearChart <->
   Forall (fun c => chains_of c = []) conns) /\
  (nodes (sankeyData conns) = [] <-> Forall (fun c => chains_of c = []) conns).
Proof.
  intros conns.
  assert (Hn : nodes (sankeyData conns) = [] <-> Forall (fun c => chains_of c = []) conns).
  { split.
    - intros H. assert (HNF : nodup_first [] (map fst (encounters conns)) = []).
      { rewrite <- (map_fst_combine_seq _ 0), <- (map_node_name (aggregate conns)),
          <- nodes_sankey, H; reflexivity. }
      apply nf_nil, map_eq_nil in HNF.
      apply Forall_forall; intros c Hc.
      assert (Hcn : conn_names c = []).
      { destruct (conn_names c) as [| p ps] eqn:E; [reflexivity |].
        assert (Hp : In p (encounters conns))
          by (unfold encounters; apply in_flat_map; exists c; rewrite E; split; [exact Hc | left; reflexivity]).
        rewrite HNF in Hp; destruct Hp. }
      unfold conn_names in Hcn; destruct (chains_of c); [reflexivity | discriminate].
    - intros H. rewrite sankeyData_eq; unfold aggregate; rewrite aggregate_chainless by exact H; reflexivity. }
  split; [| exact Hn]. rewrite <- Hn. unfold updateChartData.
  destruct (nodes (sankeyData conns)); cbn; split; congruence.
Qed.

(** Every node is coloured with one of the four layer colours. *)
Theorem node_colors_in_palette : forall conns nd,
  In nd (nodes (sankeyData conns)) -> In (node_color nd) layerColors.
Proof.
  intros conns nd Hnd. destruct (proj1 (aggregate_inv conns)) as (_ & _ & _ & Hl).
  rewrite nodes_sankey in Hnd. apply in_map_iff in Hnd as ([x i] & <- & Hin).
  apply in_combine_l, map_fst_encounters_In in Hin.
  destruct (first_layer_Some x _ Hin) as [l Hf].
  cbn [to_node node_color]. rewrite Hl, Hf.
  apply nth_In. apply first_layer_In, encounters_layer_bound in Hf. cbn; lia.
Qed.

Lemma node_colors_in_palette_witness :
  In (mkSNode 0 "10.0.0.1" "#5470c6")
     (nodes (sankeyData [mkConn "10.0.0.1" "Match" "" (Some ["Proxy"])])) /\
  In (node_color (mkSNode 0 "10.0.0.1" "#5470c6")) layerColors.
Proof.
  assert (H : In (mkSNode 0 "10.0.0.1" "#5470c6")
                 (nodes (sankeyData [mkConn "10.0.0.1" "Match" "" (Some ["Proxy"])])))
    by (vm_compute; left; reflexivity).
  split; [exact H | exact (node_colors_in_palette _ _ H)].
Defined.

(** The link values add up to three per record with a non-empty chain:
    each such record counts once on each of its three edges. *)
Theorem total_weight_three_per_record : forall conns,
  total_weight (sankeyData conns) = 3 * chained_count conns.
Proof.
  intros conns. unfold total_weight. rewrite sankeyData_eq; cbn [links].
  rewrite sum_to_link. unfold aggregate; rewrite fold_sum; reflexivity.
Qed.

Lemma updateChartData_clears_iff_chainless_witness :
  Forall (fun c => chains_of c = []) [mkConn "10.0.0.1" "Match" "" None] /\
  updateChartData (sankeyData [mkConn "10.0.0.1" "Match" "" None]) = ClearChart.
Proof.
  assert (H : Forall (fun c => chains_of c = []) [mkConn "10.0.0.1" "Match" "" None])
    by (repeat constructor).
  split; [exact H |].
  exact (proj2 (proj1 (updateChartData_clears_iff_chainless _)) H).
Defined.

(** ** Further properties of the settings page *)

Lemma findIndex_In : forall k items, In k items ->
  exists i, findIndex k items = Some i /\ i < List.length items /\
            forall d, nth i items d = k.
Proof.
  intros k items; induction items as [| x items IH]; intros H; [destruct H |].
  cbn [findIndex]. destruct (MenuKey_eqb x k) eqn:E.
  - apply MenuKey_eqb_iff in E; subst. exists 0; cbn; split; [reflexivity | split; [lia | auto]].
  - destruct H as [-> | H]; [rewrite (proj2 (MenuKey_eqb_iff k k) eq_refl) in E; discriminate |].
    destruct (IH H) as (i & Hi & Hlt & Hn). exists (S i); rewrite Hi; cbn.
    split; [reflexivity | split; [lia | exact Hn]].
Qed.

Lemma findIndex_nth : forall items i d, NoDup items -> i < List.length items ->
  findIndex (nth i items d) items = Some i.
Proof.
  induction items as [| x items IH]; intros i d Hnd Hi; [cbn in Hi; lia |].
  inversion Hnd as [| ? ? Hx Hnd']; subst.
  destruct i as [| i]; cbn [findIndex nth].
  - rewrite (proj2 (MenuKey_eqb_iff x x) eq_refl); reflexivity.
  - destruct (MenuKey_eqb x (nth i items d)) eqn:E.
    + apply MenuKey_eqb_iff in E. exfalso; apply Hx; rewrite E; apply nth_In; cbn in Hi; lia.
    + rewrite IH by (auto; cbn in Hi; lia); reflexivity.
Qed.

Lemma next_nth : forall items i d, NoDup items -> i < List.length items ->
  getNextMenuKey items (nth i items d) = nth ((i + 1) mod List.length items) items d.
Proof.
  intros items i d Hnd Hi. unfold getNextMenuKey. rewrite findIndex_nth by assumption.
  apply nth_indep, Nat.mod_upper_bound; lia.
Qed.

Lemma prev_index : forall i n, i < n ->
  Z.to_nat ((Z.of_nat i - 1 + Z.of_nat n) mod Z.of_nat n)%Z = (i + n - 1) mod n.
Proof.
  intros i n Hi.
  replace (Z.of_nat i - 1 + Z.of_nat n)%Z with (Z.of_nat (i + n - 1)) by lia.
  rewrite <- Nat2Z.inj_mod, Nat2Z.id; reflexivity.
Qed.

Lemma prev_nth : forall items i d, NoDup items -> i < List.length items ->
  getPrevMenuKey items (nth i items d) = nth ((i + List.length items - 1) mod List.length items) items d.
Proof.
  intros items i d Hnd Hi. unfold getPrevMenuKey. rewrite findIndex_nth by assumption.
  cbv zeta. rewrite prev_index by exact Hi.
  apply nth_indep, Nat.mod_upper_bound; lia.
Qed.

Lemma mod_prev_next : forall i n, i < n -> ((i + 1) mod n + n - 1) mod n = i.
Proof.
  intros i n Hi. destruct (Nat.eq_dec (i + 1) n) as [E | E].
  - rewrite E, Nat.Div0.mod_same.
    symmetry; apply (Nat.mod_unique _ _ 0); lia.
  - rewrite (Nat.mod_small (i + 1)) by lia.
    symmetry; apply (Nat.mod_unique _ _ 1); lia.
Qed.

Lemma mod_next_prev : forall i n, i < n -> ((i + n - 1) mod n + 1) mod n = i.
Proof.
  intros i n Hi. destruct i as [| i].
  - rewrite (Nat.mod_small (0 + n - 1)) by lia.
    symmetry; apply (Nat.mod_unique _ _ 1); lia.
  - rewrite <- (Nat.mod_unique (S i + n - 1) n 1 i) by lia.
    symmetry; apply (Nat.mod_unique _ _ 0); lia.
Qed.

Lemma prev_after_next : forall items k, NoDup items -> In k items ->
  getPrevMenuKey items (getNextMenuKey items k) = k.
Proof.
  intros items k Hnd Hk. destruct (findIndex_In k items Hk) as (i & _ & Hi & Hn).
  rewrite <- (Hn k). rewrite next_nth, prev_nth by (auto; apply Nat.mod_upper_bound; lia).
  rewrite mod_prev_next by exact Hi; reflexivity.
Qed.

Lemma next_after_prev : forall items k, NoDup items -> In k items ->
  getNextMenuKey items (getPrevMenuKey items k) = k.
Proof.
  intros items k Hnd Hk. destruct (findIndex_In k items Hk) as (i & _ & Hi & Hn).
  rewrite <- (Hn k). rewrite prev_nth, next_nth by (auto; apply Nat.mod_upper_bound; lia).
  rewrite mod_next_prev by exact Hi; reflexivity.
Qed.

Lemma iter_next : forall items i d m, NoDup items -> i < List.length items ->
  Nat.iter m (getNextMenuKey items) (nth i items d) = nth ((i + m) mod List.length items) items d.
Proof.
  intros items i d m Hnd Hi. induction m as [| m IH].
  - change (Nat.iter 0 (getNextMenuKey items) (nth i items d)) with (nth i items d).
    rewrite Nat.add_0_r, Nat.mod_small by exact Hi; reflexivity.
  - rewrite Nat.iter_succ, IH, next_nth by (auto; apply Nat.mod_upper_bound; lia).
    rewrite Nat.Div0.add_mod_idemp_l. f_equal; f_equal; lia.
Qed.

Lemma next_In : forall items k, In k items -> In (getNextMenuKey items k) items.
Proof.
  intros items k Hk. destruct (findIndex_In k items Hk) as (i & Hf & Hi & _).
  unfold getNextMenuKey; rewrite Hf. apply nth_In, Nat.mod_upper_bound; lia.
Qed.

(** Both layouts of the menu list every key exactly once, and the key
    active when the page opens is the first item of the menu; so
    [findIndex] never answers [-1] on the page's menu. *)
Theorem menuItems_complete : forall splitOverviewPage,
  NoDup (menuItems splitOverviewPage) /\ List.length (menuItems splitOverviewPage) = 5 /\
  (forall k, In k (menuItems splitOverviewPage)) /\
  (forall k, exists i, findIndex k (menuItems splitOverviewPage) = Some i) /\
  hd general (menuItems splitOverviewPage) = initialActiveMenuKey splitOverviewPage.
Proof.
  intros sp.
  assert (Hin : forall k, In k (menuItems sp))
    by (destruct sp, k; cbn; repeat (first [left; reflexivity | right])).
  split; [destruct sp; repeat constructor; cbn; intuition discriminate |].
  split; [destruct sp; reflexivity |]. split; [exact Hin |].
  split; [| destruct sp; reflexivity].
  intros k; destruct (findIndex_In k _ (Hin k)) as (i & Hi & _); eauto.
Qed.

(** On a menu listing each key once, "next" and "previous" undo each
    other, and [n] steps of "next" on a menu of [n] keys come back to the
    starting key. *)
Theorem menu_next_prev_inverse : forall items k, NoDup items -> In k items ->
  getPrevMenuKey items (getNextMenuKey items k) = k /\
  getNextMenuKey items (getPrevMenuKey items k) = k /\
  Nat.iter (List.length items) (getNextMenuKey items) k = k.
Proof.
  intros items k Hnd Hk. split; [apply prev_after_next; assumption |].
  split; [apply next_after_prev; assumption |].
  destruct (findIndex_In k items Hk) as (i & _ & Hi & Hn).
  rewrite <- (Hn k) at 1. rewrite iter_next by assumption.
  rewrite <- (Nat.mul_1_l (List.length items)) at 1.
  rewrite Nat.Div0.mod_add, Nat.mod_small by exact Hi. apply Hn.
Qed.

Lemma menu_next_prev_inverse_witness :
  NoDup (menuItems true) /\ In proxies (menuItems true) /\
  getPrevMenuKey (menuItems true) (getNextMenuKey (menuItems true) proxies) = proxies.
Proof.
  assert (H1 : NoDup (menuItems true)) by (repeat constructor; cbn; intuition discriminate).
  assert (H2 : In proxies (menuItems true)) by (cbn; right; right; left; reflexivity).
  split; [exact H1 |]. split; [exact H2 |].
  exact (proj1 (menu_next_prev_inverse _ _ H1 H2)).
Defined.

(** The swipe watcher: on a middle-size screen with no modal dialog, no
    focused input or textarea and no selected text, a left swipe activates
    the next key and scrolls its card into view, and a right swipe from
    there comes back to the original key; otherwise, and for vertical or
    no direction, a swipe changes nothing. *)
Theorem swipe_navigation : forall e items dir k, NoDup items -> In k items ->
  (env_middle e = true -> modalOpen e = false -> isInputActive e = false ->
   selectionLength e = 0 ->
   onSwipe e items swipe_left k = (getNextMenuKey items k, [getNextMenuKey items k]) /\
   onSwipe e items swipe_right (getNextMenuKey items k) = (k, [k])) /\
  (env_middle e = false \/ modalOpen e = true \/ isInputActive e = true \/
   0 < selectionLength e \/ dir = swipe_up \/ dir = swipe_down \/ dir = swipe_none ->
   onSwipe e items dir k = (k, [])).
Proof.
  intros e items dir k Hnd Hk. split.
  - intros Hm Hmod Hin Hsel. unfold onSwipe. rewrite Hm, Hmod, Hin, Hsel; cbn [negb orb Nat.eqb].
    destruct (findIndex_In k items Hk) as (i & Hf & _).
    destruct (findIndex_In _ items (next_In items k Hk)) as (j & Hg & _).
    rewrite Hf, Hg. unfold handleMenuClick.
    rewrite prev_after_next by assumption. rewrite Hf, Hg. split; reflexivity.
  - intros H. unfold onSwipe.
    destruct (env_middle e) eqn:Hm; [| reflexivity]. cbn [negb].
    destruct (modalOpen e || isInputActive e || negb (Nat.eqb (selectionLength e) 0)) eqn:Hb;
      [reflexivity |].
    apply orb_false_iff in Hb as [Hb Hs]; apply orb_false_iff in Hb as [Hmod Hin].
    apply negb_false_iff, Nat.eqb_eq in Hs.
    destruct H as [H | [H | [H | [H | [H | [H | H]]]]]]; try congruence; try lia; subst; reflexivity.
Qed.

Lemma swipe_navigation_witness :
  onSwipe (mkSwipeEnv true false None None) (menuItems true) swipe_left general =
    (getNextMenuKey (menuItems true) general, [getNextMenuKey (menuItems true) general]).
Proof.
  assert (H1 : NoDup (menuItems true)) by (repeat constructor; cbn; intuition discriminate).
  assert (H2 : In general (menuItems true)) by (cbn; left; reflexivity).
  exact (proj1 (proj1 (swipe_navigation (mkSwipeEnv true false None None) _ swipe_left _ H1 H2)
                  eq_refl eq_refl eq_refl eq_refl)).
Defined.

Lemma repeat_snoc : forall {A : Type} (x : A) n, repeat x n ++ [x] = repeat x (S n).
Proof. intros A x n; induction n as [| n IH]; cbn; [reflexivity | rewrite IH; reflexivity]. Qed.

Lemma iter_setup : forall mid cont s k, tickQueue s = [] ->
  Nat.iter (S k) (setup_sync mid cont) s =
  mkObs [] (stopped s ++ observers s) []
        (if mid && cont then repeat RegisterObservers (S k) else []).
Proof.
  intros mid cont s k Hq. induction k as [| k IH].
  - change (Nat.iter 1 (setup_sync mid cont) s) with (setup_sync mid cont s).
    unfold setup_sync; rewrite Hq; destruct mid, cont; reflexivity.
  - rewrite Nat.iter_succ, IH. unfold setup_sync; cbn [observers stopped tickQueue].
    rewrite app_nil_r. destruct mid, cont; cbn [negb orb andb]; try reflexivity.
    rewrite repeat_snoc; reflexivity.
Qed.

Lemma flush_registers : forall mid cont items present n fuel s,
  n <= fuel -> tickQueue s = repeat RegisterObservers n ->
  flush_fuel mid cont items present fuel s =
  mkObs (observers s ++ List.concat (repeat (filter present items) n)) (stopped s) (ratios s) [].
Proof.
  intros mid cont items present n; induction n as [| n IH]; intros fuel [o st r q] Hn Hq;
    cbn [tickQueue observers stopped ratios] in *; subst q.
  - rewrite app_nil_r. destruct fuel; reflexivity.
  - destruct fuel as [| fuel]; [lia |]. cbn [flush_fuel tickQueue repeat].
    rewrite IH by (cbn; auto; lia). cbn [run_job register observers stopped ratios].
    cbn [repeat List.concat]. rewrite app_assoc; reflexivity.
Qed.

(** [setupIntersectionObservers] stops every observer it finds and clears
    the visibility map at once, but registers the new observers only in
    its [nextTick] callback: after [k + 1] calls in one tick, flushing the
    tick leaves [k + 1] observers per item whose card exists (one when it
    is called once), and none when the screen is not middle-size or there
    is no scroll container.  A change of [menuItems] or [isMiddleScreen]
    ends, once its tick is flushed, with one observer per existing card. *)
Theorem setup_observers_after_tick : forall mid cont items present s k,
  tickQueue s = [] ->
  (let s' := flushTicks mid cont items present (Nat.iter (S k) (setup_sync mid cont) s) in
   observers s' = (if mid && cont then List.concat (repeat (filter present items) (S k)) else []) /\
   stopped s' = stopped s ++ observers s /\ ratios s' = [] /\ tickQueue s' = []) /\
  (let s' := flushTicks mid cont items present (watch_fire s) in
   observers s' = (if mid && cont then filter present items else []) /\
   stopped s' = stopped s ++ observers s /\ ratios s' = [] /\ tickQueue s' = []).
Proof.
  intros mid cont items present s k Hq. split.
  - cbv zeta. unfold flushTicks. rewrite iter_setup by exact Hq.
    destruct (mid && cont) eqn:Hg.
    + rewrite (flush_registers mid cont items present (S k)) by (cbn [tickQueue]; rewrite ?repeat_length; lia || reflexivity).
      cbn; repeat split.
    + cbn [tickQueue List.length]. cbn; repeat split.
  - cbv zeta. unfold flushTicks, watch_fire. cbn [tickQueue]. rewrite Hq. cbn [List.length Datatypes.app].
    cbn [Nat.mul Nat.add flush_fuel tickQueue run_job].
    unfold setup_sync; cbn [observers stopped tickQueue ratios].
    destruct mid, cont; cbn; repeat split; rewrite ?app_nil_r; reflexivity.
Qed.

Lemma setup_observers_after_tick_witness :
  observers (flushTicks true true (menuItems true) (fun _ => true)
               (Nat.iter 2 (setup_sync true true) (mkObs [] [] [] []))) =
  List.concat (repeat (filter (fun _ => true) (menuItems true)) 2).
Proof.
  exact (proj1 (proj1 (setup_observers_after_tick true true (menuItems true) (fun _ => true)
                         (mkObs [] [] [] []) 1 eq_refl))).
Defined.
